(** * Help-text rendering of the command-line front end (cli/helptext.go)

    A shallow embedding of [cli/helptext.go]: the text helpers ([align],
    [indentString]), the usage formatter ([argUsageText], [usageText]), the
    default section generators ([argumentText], [optionText],
    [subcommandText]), the two templates and the composer [LongHelp].

    Go strings are byte sequences and [len] counts bytes, so a Go string is a
    [string] (a list of 8-bit characters) and [len] is [String.length]. *)

From Stdlib Require Import Strings.String Strings.Ascii Lists.List Arith.Arith
  Arith.PeanoNat Bool.Bool micromega.Lia.
Import ListNotations.
#[local] Set Warnings "-register-all".
Open Scope list_scope.
Open Scope string_scope.

(** ** The pieces of the Go standard library the file calls *)

Module strings.

(** [strings.Repeat(s, count)]. *)
Fixpoint Repeat (s : string) (count : nat) : string :=
  match count with
  | O => EmptyString
  | S k => s ++ Repeat s k
  end.

(** [strings.Join(elems, sep)]. *)
Definition Join (elems : list string) (sep : string) : string :=
  String.concat sep elems.

(** The scan behind [strings.Replace(s, old, new, -1)] for a non-empty [old]:
    left to right, every non-overlapping occurrence of [old] is replaced.
    [skip] counts the bytes of a matched occurrence still to be dropped. *)
Fixpoint replaceFrom (old new : string) (skip : nat) (s : string) : string :=
  match s with
  | EmptyString => EmptyString
  | String c rest =>
      match skip with
      | S k => replaceFrom old new k rest
      | O =>
          if String.prefix old s
          then new ++ replaceFrom old new (String.length old - 1) rest
          else String c (replaceFrom old new 0 rest)
      end
  end.

(** [strings.Replace(s, old, new, -1)], [old] non-empty (the only use in the
    file has [old = "\n"]). *)
Definition Replace (s old new : string) : string :=
  replaceFrom old new 0 s.

End strings.

Module fmt.

(** [fmt.Sprintf] restricted to the verb the file uses, [%v], applied to
    string operands: each [%v] prints the next operand as it is; a verb with
    no operand left prints [%!v(MISSING)] as Go does.  Every call in the file
    passes exactly as many operands as the format has verbs. *)
Fixpoint Sprintf (format : string) (a : list string) : string :=
  match format with
  | String "%" (String "v" rest) =>
      match a with
      | x :: a' => x ++ Sprintf rest a'
      | [] => "%!v(MISSING)" ++ Sprintf rest []
      end
  | String c rest => String c (Sprintf rest a)
  | EmptyString => EmptyString
  end.

End fmt.

(** The line-feed byte, Go's ["\n"]. *)
Definition LF : ascii := ascii_of_nat 10.
Definition nl : string := String LF EmptyString.

(** ** Constants of the file *)

Definition requiredArg : string := "<%v>".
Definition optionalArg : string := "[<%v>]".
Definition variadicArg : string := "%v...".
Definition optionFlag : string := "-%v".
Definition optionType : string := "(%v)".

Definition indentStr : string := "    ".

(** ** The command tree, read only *)

Module cmds.

(** Modelled from the spec: the declarations of [Argument], [Option] and
    [Command] live in the [commands] package; the fields are the ones the
    file reads.  [Subcommands] is a Go map; it is kept as the list of its
    entries in the order in which the runtime ranges over it. *)
Record Argument : Type := mkArgument {
  arg_Name : string;
  arg_Required : bool;
  arg_Variadic : bool;
  arg_Description : string
}.

Record Option : Type := mkOption {
  opt_Names : list string;
  opt_Type : string;
  opt_Description : string
}.

Inductive Command : Type := mkCommand {
  cmd_Description : string;
  cmd_Help : string;
  cmd_ArgumentHelp : string;
  cmd_OptionHelp : string;
  cmd_SubcommandHelp : string;
  cmd_Arguments : list Argument;
  cmd_Options : list Option;
  cmd_Subcommands : list (string * Command)
}.

(** The errors a render can return. *)
Inductive error : Type :=
| CommandNotFound (path : list string)
| ExecError (msg : string).

(** Map lookup [m[name]] on the entries of a map. *)
Fixpoint lookup {A : Type} (name : string) (m : list (string * A)) : option A :=
  match m with
  | [] => None
  | (k, v) :: rest => if String.eqb k name then Some v else lookup name rest
  end.

(** Modelled from the spec: [Command.Get] is not part of this file.  It
    resolves the command at [path] from the root and fails with a not-found
    error if any path segment does not exist. *)
Fixpoint Get (root : Command) (path : list string) : Command + error :=
  match path with
  | [] => inl root
  | name :: rest =>
      match lookup name (cmd_Subcommands root) with
      | Some sub =>
          match Get sub rest with
          | inl c => inl c
          | inr _ => inr (CommandNotFound path)
          end
      | None => inr (CommandNotFound path)
      end
  end.

End cmds.
Import cmds.

(** ** Text helpers *)

(** [lines[i] = f(lines[i])]; an index out of range is never written by the
    code below, and is left alone here. *)
Fixpoint update (i : nat) (f : string -> string) (lines : list string)
  : list string :=
  match lines, i with
  | [], _ => []
  | l :: rest, O => f l :: rest
  | l :: rest, S k => l :: update k f rest
  end.

(** First loop of [align]: the length of the longest line. *)
Definition longestOf (lines : list string) : nat :=
  fold_left (fun longest line =>
               let length := String.length line in
               if (longest <? length)%nat then length else longest)
            lines 0.

(** Second loop of [align]: every non-empty line is padded to [longest]. *)
Definition padTo (longest : nat) (line : string) : string :=
  let length := String.length line in
  if (0 <? length)%nat then line ++ strings.Repeat " " (longest - length) else line.

Definition align (lines : list string) : list string :=
  let longest := longestOf lines in
  map (padTo longest) lines.

Definition indentString (line prefix : string) : string :=
  strings.Replace line nl (nl ++ prefix).

Definition indent (lines : list string) (prefix : string) : list string :=
  map (fun line => prefix ++ indentString line prefix) lines.

(** ** Usage formatter *)

Definition argUsageText (arg : Argument) : string :=
  let s := arg_Name arg in
  let s := if arg_Required arg
           then fmt.Sprintf requiredArg [s]
           else fmt.Sprintf optionalArg [s] in
  let s := if arg_Variadic arg then fmt.Sprintf variadicArg [s] else s in
  s.

(** The loop of [usageText], with its index [i] and accumulator [s]. *)
Fixpoint usageLoop (i : nat) (s : string) (args : list Argument) : string :=
  match args with
  | [] => s
  | arg :: rest =>
      let s := if negb (i =? 0)%nat then s ++ " " else s in
      usageLoop (S i) (s ++ argUsageText arg) rest
  end.

Definition usageText (cmd : Command) : string :=
  usageLoop 0 EmptyString (cmd_Arguments cmd).

(** ** Default section generators *)

Definition argumentText (cmd : Command) : list string :=
  map (fun arg =>
         let line := argUsageText arg in
         let line := line ++ (nl ++ arg_Description arg) in
         indentString line "    " ++ nl)
      (cmd_Arguments cmd).

(** One iteration of the inner loop of [optionText] at alias index [j]: the
    state is [lines], the flag [done] and the line index [i]. *)
Definition namesStep (j : nat) (st : list string * bool * nat) (opt : Option)
  : list string * bool * nat :=
  let '(lines, done, i) := st in
  let lines :=
    if (List.length lines <? i + 1)%nat
    then (lines ++ [EmptyString])%list else lines in
  let lines :=
    if (j + 1 <=? List.length (opt_Names opt))%nat
    then update i (fun l =>
                     l ++ fmt.Sprintf optionFlag [nth j (opt_Names opt) EmptyString])
                lines
    else lines in
  if (j + 1 <? List.length (opt_Names opt))%nat
  then (update i (fun l => l ++ ", ") lines, false, S i)
  else (lines, done, S i).

(** One pass over all options: the body of the outer [for] up to the test of
    [done]. *)
Definition namesPass (j : nat) (options : list Option) (lines : list string)
  : list string * bool :=
  let '(lines, done, _) := fold_left (namesStep j) options (lines, true, 0) in
  (lines, done).

(** The outer [for] of [optionText].  [fuel] bounds the number of passes;
    [None] stands for a loop that has not left through [break] after [fuel]
    passes. *)
Fixpoint namesLoop (fuel j : nat) (options : list Option) (lines : list string)
  : option (list string) :=
  match fuel with
  | O => None
  | S fuel' =>
      let '(lines, done) := namesPass j options lines in
      if done then Some lines
      else namesLoop fuel' (S j) options (align lines)
  end.

(** The largest number of aliases of an option. *)
Definition maxNames (options : list Option) : nat :=
  fold_right (fun opt m => Nat.max (List.length (opt_Names opt)) m) 0 options.

(** [for i, opt := range options { lines[i] = f(opt, lines[i]) }]. *)
Fixpoint rangeUpdate (f : Option -> string -> string) (i : nat)
  (options : list Option) (lines : list string) : list string :=
  match options with
  | [] => lines
  | opt :: rest => rangeUpdate f (S i) rest (update i (f opt) lines)
  end.

(** [optionText] up to the padded names-and-type column (before the
    descriptions are added). *)
Definition optionColumns (options : list Option) : list string :=
  let lines :=
    match namesLoop (S (maxNames options)) 0 options [] with
    | Some lines => lines
    | None => [] (* not reached: [namesLoop_terminates] *)
    end in
  let lines :=
    rangeUpdate (fun opt l => l ++ (" " ++ fmt.Sprintf optionType [opt_Type opt]))
                0 options lines in
  align lines.

Definition optionText (cmd : list Command) : list string :=
  let options := flat_map cmd_Options cmd in
  let lines := optionColumns options in
  rangeUpdate (fun opt l =>
                 let l := l ++ (nl ++ opt_Description opt) in
                 indentString l "    " ++ nl)
              0 options lines.

Definition subcommandText (cmd : Command) (rootName : string)
  (path : list string) : list string :=
  let prefix := fmt.Sprintf "%v %v" [rootName; strings.Join path " "] in
  let prefix := if (0 <? List.length path)%nat then prefix ++ " " else prefix in
  map (fun entry : string * Command =>
         let (name, sub) := entry in
         let usage := usageText sub in
         let line := fmt.Sprintf "%v%v %v" [prefix; name; usage] in
         let line := line ++ fmt.Sprintf (nl ++ "%v") [cmd_Description sub] in
         indentString line "    " ++ nl)
      (cmd_Subcommands cmd).

(** ** The templates *)

Record helpFields : Type := mkHelpFields {
  Indent : string;
  Path : string;
  ArgUsage : string;
  Tagline : string;
  Arguments : string;
  Options : string;
  Subcommands : string;
  Description : string
}.

(** The double-quote byte. *)
Definition DQ : string := String (ascii_of_nat 34) EmptyString.

Definition usageFormat : string :=
  "{{.Path}}{{if .ArgUsage}} {{.ArgUsage}}{{end}} - {{.Tagline}}".

Definition longHelpFormat : string :=
"
{{.Indent}}{{template " ++ DQ ++ "usage" ++ DQ ++ " .}}

{{if .Arguments}}ARGUMENTS:

{{.Indent}}{{.Arguments}}

{{end}}{{if .Options}}OPTIONS:

{{.Indent}}{{.Options}}

{{end}}{{if .Subcommands}}SUBCOMMANDS:

{{.Indent}}{{.Subcommands}}

{{.Indent}}Use '{{.Path}} <subcmd> --help' for more information about each command.

{{end}}{{if .Description}}DESCRIPTION:

{{.Indent}}{{.Description}}

{{end}}
".

(** The part of [text/template] the two formats use: literal text, a field of
    the data ([{{.F}}]), a conditional on a field ([{{if .F}}...{{end}}]) and
    the call of a named template on the same data ([{{template "n" .}}]). *)
Module template.

Inductive node : Type :=
| Text (s : string)
| Field (name : string)
| If (name : string) (body : list node)
| Call (name : string).

Inductive token : Type :=
| TText (s : string)
| TAction (s : string).

Definition snoc (s : string) (c : ascii) : string := s ++ String c EmptyString.

Definition flushText (cur : string) : list token :=
  match cur with
  | EmptyString => []
  | _ => [TText cur]
  end.

(** Cut the format at the delimiters.  [inAction] tells on which side of
    a left delimiter the scan is, [cur] is the piece read so far. *)
Fixpoint lex (inAction : bool) (cur : string) (s : string)
  : option (list token) :=
  match s with
  | EmptyString => if inAction then None else Some (flushText cur)
  | String "{" (String "{" rest) =>
      if inAction then None
      else option_map (fun ts => (flushText cur ++ ts)%list) (lex true EmptyString rest)
  | String "}" (String "}" rest) =>
      if inAction
      then option_map (fun ts => TAction cur :: ts) (lex false EmptyString rest)
      else lex false (snoc (snoc cur "}") "}") rest
  | String c rest => lex inAction (snoc cur c) rest
  end.

(** [stripPrefix p s] is the rest of [s] after its prefix [p]. *)
Fixpoint stripPrefix (p s : string) : option string :=
  match p, s with
  | EmptyString, _ => Some s
  | String a p', String b s' =>
      if Ascii.eqb a b then stripPrefix p' s' else None
  | String _ _, EmptyString => None
  end.

Inductive action : Type :=
| AField (name : string)
| AIf (name : string)
| AEnd
| ACall (name : string).

Definition parseAction (s : string) : option action :=
  if String.eqb s "end" then Some AEnd
  else
    match stripPrefix "if ." s with
    | Some name => Some (AIf name)
    | None =>
        match stripPrefix ("template " ++ DQ) s with
        | Some rest =>
            match String.index 0 DQ rest with
            | Some n =>
                if String.eqb (String.substring n (String.length rest - n) rest)
                              (DQ ++ " .")
                then Some (ACall (String.substring 0 n rest))
                else None
            | None => None
            end
        | None =>
            match stripPrefix "." s with
            | Some name => Some (AField name)
            | None => None
            end
        end
    end.

(** Build the tree: [cur] holds the nodes of the block being read, last
    first, and [stack] the enclosing [if] blocks. *)
Fixpoint build (ts : list token) (cur : list node)
  (stack : list (string * list node)) : option (list node) :=
  match ts with
  | [] => match stack with [] => Some (rev cur) | _ :: _ => None end
  | TText s :: ts' => build ts' (Text s :: cur) stack
  | TAction a :: ts' =>
      match parseAction a with
      | None => None
      | Some (AField name) => build ts' (Field name :: cur) stack
      | Some (ACall name) => build ts' (Call name :: cur) stack
      | Some (AIf name) => build ts' [] ((name, cur) :: stack)
      | Some AEnd =>
          match stack with
          | [] => None
          | (name, outer) :: stack' =>
              build ts' (If name (rev cur) :: outer) stack'
          end
      end
  end.

(** [Parse]: [None] is a parse error. *)
Definition Parse (format : string) : option (list node) :=
  match lex false EmptyString format with
  | Some ts => build ts [] []
  | None => None
  end.

(** A set of named templates, as [New] and [Parse] build it. *)
Definition set : Type := list (string * list node).

End template.

(** The field of the data a template names; an unknown name is an error of
    the execution. *)
Definition fieldOf (f : helpFields) (name : string) : option string :=
  if String.eqb name "Indent" then Some (Indent f)
  else if String.eqb name "Path" then Some (Path f)
  else if String.eqb name "ArgUsage" then Some (ArgUsage f)
  else if String.eqb name "Tagline" then Some (Tagline f)
  else if String.eqb name "Arguments" then Some (Arguments f)
  else if String.eqb name "Options" then Some (Options f)
  else if String.eqb name "Subcommands" then Some (Subcommands f)
  else if String.eqb name "Description" then Some (Description f)
  else None.

(** Truth of a string in [{{if}}]: it is not empty. *)
Definition truth (s : string) : bool :=
  match s with
  | EmptyString => false
  | String _ _ => true
  end.

(** The output sink: the bytes written so far; a write appends.  This is a
    sink that accepts every write, such as a buffer in memory; the error a
    failing [io.Writer] would hand back through [Execute] is not modelled,
    so what is proved below about a render is what text it writes. *)
Definition Writer : Type := string.

Definition write (out : Writer) (s : string) : Writer := out ++ s.

(** A list of nodes is executed in order; an error stops the execution,
    leaving what was written before it. *)
Fixpoint runSeq (step : template.node -> Writer -> Writer * option error)
  (ns : list template.node) (out : Writer) : Writer * option error :=
  match ns with
  | [] => (out, None)
  | n :: rest =>
      match step n out with
      | (out', None) => runSeq step rest out'
      | (out', Some e) => (out', Some e)
      end
  end.

(** Execution of the nodes of a template: the text is written piece by
    piece.  [depth] bounds the nesting of template calls. *)
Fixpoint exec (depth : nat) (ts : template.set) (f : helpFields)
  (ns : list template.node) (out : Writer) {struct depth}
  : Writer * option error :=
  match depth with
  | O => (out, Some (ExecError "exceeded maximum template depth"))
  | S depth' =>
      runSeq
        (fix step (n : template.node) (out : Writer) {struct n}
           : Writer * option error :=
           match n with
           | template.Text s => (write out s, None)
           | template.Field name =>
               match fieldOf f name with
               | Some v => (write out v, None)
               | None => (out, Some (ExecError name))
               end
           | template.If name body =>
               match fieldOf f name with
               | Some v => if truth v then runSeq step body out else (out, None)
               | None => (out, Some (ExecError name))
               end
           | template.Call name =>
               match lookup name ts with
               | Some body => exec depth' ts f body out
               | None => (out, Some (ExecError name))
               end
           end) ns out
  end.

(** [t.Execute(out, fields)] for the template called [name] of the set.  A
    chain of calls longer than the set has templates calls some template
    twice on the same data, and so never ends; the depth stops there. *)
Definition Execute (ts : template.set) (name : string) (out : Writer)
  (f : helpFields) : Writer * option error :=
  match lookup name ts with
  | Some body => exec (List.length ts) ts f body out
  | None => (out, Some (ExecError name))
  end.

(** [init]: both formats are parsed into one set; [None] is the panic. *)
Definition init : option template.set :=
  match template.Parse usageFormat with
  | None => None
  | Some usage =>
      match template.Parse longHelpFormat with
      | None => None
      | Some longHelp => Some [("usage", usage); ("longHelp", longHelp)]
      end
  end.

(** The set behind [longHelpTemplate] once [init] has run ([init_parses]:
    it does not panic). *)
Definition longHelpTemplate : template.set :=
  match init with
  | Some ts => ts
  | None => []
  end.

(** ** The composer *)

Section Composer.

(** The three generators [LongHelp] calls for the fields left empty. *)
Variable argumentGen : Command -> list string.
Variable optionGen : list Command -> list string.
Variable subcommandGen : Command -> string -> list string -> list string.

Definition composeFields (rootName : string) (cmd : Command)
  (path : list string) : helpFields :=
  let pathStr := rootName in
  let pathStr :=
    if (0 <? List.length path)%nat
    then pathStr ++ (" " ++ strings.Join path " ") else pathStr in
  let fArguments := cmd_ArgumentHelp cmd in
  let fOptions := cmd_OptionHelp cmd in
  let fSubcommands := cmd_SubcommandHelp cmd in
  let fDescription := cmd_Help cmd in
  (* autogen fields that are empty *)
  let fArguments :=
    if (String.length (cmd_ArgumentHelp cmd) =? 0)%nat
    then strings.Join (argumentGen cmd) nl else fArguments in
  let fOptions :=
    if (String.length (cmd_OptionHelp cmd) =? 0)%nat
    then strings.Join (optionGen [cmd]) nl else fOptions in
  let fSubcommands :=
    if (String.length (cmd_SubcommandHelp cmd) =? 0)%nat
    then strings.Join (subcommandGen cmd rootName path) nl else fSubcommands in
  {| Indent := indentStr;
     Path := pathStr;
     ArgUsage := usageText cmd;
     Tagline := cmd_Description cmd;
     Arguments := indentString fArguments indentStr;
     Options := indentString fOptions indentStr;
     Subcommands := indentString fSubcommands indentStr;
     Description := indentString fDescription indentStr |}.

Definition LongHelpWith (rootName : string) (root : Command)
  (path : list string) (out : Writer) : Writer * option error :=
  match Get root path with
  | inr err => (out, Some err)
  | inl cmd =>
      Execute longHelpTemplate "longHelp" out (composeFields rootName cmd path)
  end.

End Composer.

(** [LongHelp], with the generators of this file. *)
Definition LongHelp : string -> Command -> list string -> Writer
                      -> Writer * option error :=
  LongHelpWith argumentText optionText subcommandText.

(** * Vocabulary of the specification *)

(** What alignment to width [longest] makes of one entry [l]: an empty entry
    stays empty, any other is [l] followed by spaces up to [longest]. *)
Definition alignedEntry (longest : nat) (l r : string) : Prop :=
  match l with
  | EmptyString => r = EmptyString
  | String _ _ =>
      r = l ++ strings.Repeat " " (longest - String.length l)
      /\ String.length r = longest
  end.

(** The number of line breaks of a text. *)
Fixpoint countNL (s : string) : nat :=
  match s with
  | EmptyString => 0
  | String c rest => if Ascii.eqb c LF then S (countNL rest) else countNL rest
  end.

(** The lines of a text: the pieces between its line breaks, so a text with
    [n] line breaks has [n + 1] lines. *)
Fixpoint splitLines (s : string) : list string :=
  match s with
  | EmptyString => [EmptyString]
  | String c rest =>
      if Ascii.eqb c LF then EmptyString :: splitLines rest
      else match splitLines rest with
           | first :: others => String c first :: others
           | [] => [String c EmptyString]
           end
  end.

(** What the claim on indentation says of a text and a prefix. *)
Definition indentKeepsLines (text prefix : string) : Prop :=
  countNL (indentString text prefix) + 1 = countNL text + 1
  /\ Forall (fun l => String.prefix prefix l = true)
            (tl (splitLines (indentString text prefix))).

(** The usage line: [<path> <arg-usage> - <tagline>], the arg-usage and its
    separating space left out when there is none. *)
Definition usageLine (f : helpFields) : string :=
  Path f
  ++ (if truth (ArgUsage f) then " " ++ ArgUsage f else EmptyString)
  ++ " - " ++ Tagline f.

(** A named section of the long help: nothing at all when its content is
    empty; otherwise the header, a blank line, the indented content, a blank
    line and what the section adds after it. *)
Definition sectionText (header indent content extra : string) : string :=
  if truth content
  then header ++ nl ++ nl ++ indent ++ content ++ nl ++ nl ++ extra
  else EmptyString.

Definition hintLine (f : helpFields) : string :=
  Indent f ++ "Use '" ++ Path f
  ++ " <subcmd> --help' for more information about each command."
  ++ nl ++ nl.

(** The output text format of the long help. *)
Definition longHelpText (f : helpFields) : string :=
  nl ++ Indent f ++ usageLine f ++ nl ++ nl
  ++ sectionText "ARGUMENTS:" (Indent f) (Arguments f) EmptyString
  ++ sectionText "OPTIONS:" (Indent f) (Options f) EmptyString
  ++ sectionText "SUBCOMMANDS:" (Indent f) (Subcommands f) (hintLine f)
  ++ sectionText "DESCRIPTION:" (Indent f) (Description f) EmptyString
  ++ nl.

(** The trees the two formats parse to. *)
Definition parsedTemplates : template.set :=
  [("usage",
    [template.Field "Path";
     template.If "ArgUsage" [template.Text " "; template.Field "ArgUsage"];
     template.Text " - ";
     template.Field "Tagline"]);
   ("longHelp",
    [template.Text nl;
     template.Field "Indent";
     template.Call "usage";
     template.Text (nl ++ nl);
     template.If "Arguments"
       [template.Text ("ARGUMENTS:" ++ nl ++ nl);
        template.Field "Indent"; template.Field "Arguments";
        template.Text (nl ++ nl)];
     template.If "Options"
       [template.Text ("OPTIONS:" ++ nl ++ nl);
        template.Field "Indent"; template.Field "Options";
        template.Text (nl ++ nl)];
     template.If "Subcommands"
       [template.Text ("SUBCOMMANDS:" ++ nl ++ nl);
        template.Field "Indent"; template.Field "Subcommands";
        template.Text (nl ++ nl);
        template.Field "Indent"; template.Text "Use '";
        template.Field "Path";
        template.Text
          (" <subcmd> --help' for more information about each command."
           ++ nl ++ nl)];
     template.If "Description"
       [template.Text ("DESCRIPTION:" ++ nl ++ nl);
        template.Field "Indent"; template.Field "Description";
        template.Text (nl ++ nl)];
     template.Text nl])].

(** A path has a segment that is absent from the command tree: its first
    segment names no subcommand of the root, or it names one and the rest of
    the path has a segment absent from that subcommand's tree. *)
Inductive absentSegment : Command -> list string -> Prop :=
| absent_here (root : Command) (name : string) (rest : list string) :
    lookup name (cmd_Subcommands root) = None ->
    absentSegment root (name :: rest)
| absent_below (root sub : Command) (name : string) (rest : list string) :
    lookup name (cmd_Subcommands root) = Some sub ->
    absentSegment sub rest ->
    absentSegment root (name :: rest).

(** The fields [LongHelp] hands to the template. *)
Definition fieldsOf (rootName : string) (cmd : Command) (path : list string)
  : helpFields :=
  composeFields argumentText optionText subcommandText rootName cmd path.

(** The display path of [LongHelp]: the root name, then the segments of
    the path, space-joined, if any. *)
Definition displayPath (rootName : string) (path : list string) : string :=
  match path with
  | [] => rootName
  | _ :: _ => rootName ++ " " ++ strings.Join path " "
  end.

(** The text in front of a subcommand's name in its entry. *)
Definition entryPrefix (rootName : string) (path : list string) : string :=
  match path with
  | [] => rootName ++ " "
  | _ :: _ => rootName ++ " " ++ strings.Join path " " ++ " "
  end.

(** Commands the statements below are tried on. *)
Definition sampleLeaf : Command :=
  mkCommand "list things" "" "" "" "" [] [] [].

Definition sampleRoot : Command :=
  mkCommand "a tool" "Long help." "" ("-f  force" ++ nl ++ "-q  quiet") ""
            [mkArgument "name" true false "the name"]
            [mkOption ["f"] "string" "force"]
            [("list", sampleLeaf)].

(** The names-and-type text of an option with a single alias, before
    padding: the flag, a space, the type in parentheses. *)
Definition singleAliasLine (opt : Option) : string :=
  "-" ++ nth 0 (opt_Names opt) EmptyString ++ " (" ++ opt_Type opt ++ ")".

(** The block [optionText] makes of a padded names-and-type line and the
    option it belongs to. *)
Definition optionBlock (opt : Option) (column : string) : string :=
  indentString column "    " ++ nl ++ "    "
  ++ indentString (opt_Description opt) "    " ++ nl.

(** [b] is [a] with something appended. *)
Definition extends (a b : string) : Prop := exists rest, b = a ++ rest.

(** What the first pass of the names loop writes for an option: its first
    flag if it has an alias, and a comma and a space if it has a second. *)
Definition firstFlag (opt : Option) : string :=
  (if (1 <=? List.length (opt_Names opt))%nat
   then "-" ++ nth 0 (opt_Names opt) EmptyString else EmptyString)
  ++ (if (1 <? List.length (opt_Names opt))%nat then ", " else EmptyString).

(** A list has no element. *)
Definition noItems {A : Type} (l : list A) : bool :=
  match l with
  | [] => true
  | _ :: _ => false
  end.

Definition isEmpty (s : string) : bool := negb (truth s).

(** A named section that is left out under a condition on the command, and
    otherwise is the header, a blank line, the indented content, a blank line
    and what the section adds after it. *)
Definition sectionUnless (leftOut : bool) (header content extra : string)
  : string :=
  if leftOut then EmptyString
  else header ++ nl ++ nl ++ "    " ++ content ++ nl ++ nl ++ extra.

(** * Properties *)

(** ** Strings *)

Section StringFacts.

Lemma length_append (s t : string) :
  String.length (s ++ t) = String.length s + String.length t.
Proof. induction s as [|c s IH]; simpl; [reflexivity | now rewrite IH]. Qed.

Lemma append_assoc (s t u : string) : (s ++ t) ++ u = s ++ (t ++ u).
Proof. induction s as [|c s IH]; simpl; [reflexivity | now rewrite IH]. Qed.

Lemma append_empty_r (s : string) : s ++ EmptyString = s.
Proof. induction s as [|c s IH]; simpl; [reflexivity | now rewrite IH]. Qed.

Lemma length_zero_empty (s : string) : String.length s = 0 -> s = EmptyString.
Proof. destruct s; simpl; [reflexivity | discriminate]. Qed.

Lemma Repeat_space_length (n : nat) :
  String.length (strings.Repeat " " n) = n.
Proof. induction n as [|n IH]; simpl; [reflexivity | now rewrite IH]. Qed.

Lemma truth_nonempty (s : string) : truth s = true <-> s <> EmptyString.
Proof. destruct s; simpl; split; congruence. Qed.

End StringFacts.

(** Equality of two concatenations up to bracketing. *)
Ltac by_assoc :=
  unfold write, nl;
  repeat (progress (rewrite ?append_assoc, ?append_empty_r; cbn [append]));
  reflexivity.

(** ** Alignment *)

Section Align.

(** The first loop keeps a running maximum. *)
Lemma longest_from (lines : list string) (acc : nat) :
  fold_left (fun longest line =>
               let length := String.length line in
               if (longest <? length)%nat then length else longest)
            lines acc
  = Nat.max acc (list_max (map String.length lines)).
Proof.
  revert acc; induction lines as [|l lines IH]; intro acc; simpl.
  - now rewrite Nat.max_0_r.
  - rewrite IH. fold (list_max (map String.length lines)).
    destruct (acc <? String.length l)%nat eqn:E;
      [apply Nat.ltb_lt in E | apply Nat.ltb_ge in E]; lia.
Qed.

Lemma longestOf_max (lines : list string) :
  longestOf lines = list_max (map String.length lines).
Proof. unfold longestOf. now rewrite longest_from. Qed.

Lemma padTo_length (longest : nat) (line : string) :
  line <> EmptyString -> String.length line <= longest ->
  String.length (padTo longest line) = longest.
Proof.
  intros Hne Hle. unfold padTo.
  destruct line as [|c line]; [congruence|].
  cbn [String.length Nat.ltb Nat.leb].
  rewrite length_append, Repeat_space_length. simpl in *. lia.
Qed.

Lemma padTo_empty (longest : nat) : padTo longest EmptyString = EmptyString.
Proof. reflexivity. Qed.

Lemma padTo_full (line : string) :
  padTo (String.length line) line = line.
Proof.
  unfold padTo. destruct (0 <? String.length line)%nat; [|reflexivity].
  rewrite Nat.sub_diag. simpl. apply append_empty_r.
Qed.

Lemma length_le_list_max (lines : list string) (l : string) :
  In l lines -> String.length l <= list_max (map String.length lines).
Proof.
  induction lines as [|x lines IH]; simpl; [tauto|].
  intros [-> | Hin]; [lia | specialize (IH Hin); lia].
Qed.

(** After one alignment every line is empty or as long as the longest. *)
Lemma align_lengths (lines : list string) :
  Forall (fun r => r = EmptyString
                   \/ String.length r = list_max (map String.length lines))
         (align lines).
Proof.
  unfold align. rewrite longestOf_max. apply Forall_forall.
  intros r Hin. apply in_map_iff in Hin. destruct Hin as [l [<- Hin]].
  destruct l as [|c l]; [left; reflexivity | right].
  apply padTo_length; [discriminate | now apply length_le_list_max].
Qed.

(** Lines that are all empty or of one length [m] have [m] or [0] as their
    longest length, and padding to that length changes nothing. *)
Lemma pad_uniform (m : nat) (lines : list string) :
  Forall (fun r => r = EmptyString \/ String.length r = m) lines ->
  forall k, k = 0 \/ k = m ->
  (Nat.max k (list_max (map String.length lines)) = 0
   \/ Nat.max k (list_max (map String.length lines)) = m).
Proof.
  induction 1 as [|r lines Hr _ IH]; intros k Hk; simpl.
  - rewrite Nat.max_0_r. exact Hk.
  - rewrite Nat.max_assoc. apply IH.
    destruct Hr as [-> | Hr]; simpl; destruct Hk as [-> | ->]; lia.
Qed.

Lemma padTo_uniform (m M : nat) (lines : list string) :
  Forall (fun r => r = EmptyString \/ String.length r = m) lines ->
  (M = m \/ (M = 0 /\ Forall (fun r => r = EmptyString) lines)) ->
  map (padTo M) lines = lines.
Proof.
  induction 1 as [|r lines Hr _ IH]; intros HM; simpl; [reflexivity|].
  f_equal.
  - destruct Hr as [-> | Hr]; [reflexivity|].
    destruct HM as [-> | [-> Hall] ].
    + rewrite <- Hr. apply padTo_full.
    + inversion Hall; subst. reflexivity.
  - apply IH. destruct HM as [-> | [-> Hall] ]; [now left | right].
    split; [reflexivity | now inversion Hall].
Qed.

Lemma list_max_zero_empty (lines : list string) :
  list_max (map String.length lines) = 0 ->
  Forall (fun r => r = EmptyString) lines.
Proof.
  induction lines as [|l lines IH]; simpl; intro H; constructor.
  - apply length_zero_empty. lia.
  - apply IH. lia.
Qed.

End Align.

(** C4. For every list of strings, [align] returns a list of the same length;
    an entry that was empty stays empty, and any other entry is the original
    followed by spaces, of length the maximum length over all input
    entries. *)
Theorem align_pads_to_longest (lines : list string) :
  List.length (align lines) = List.length lines
  /\ Forall2 (alignedEntry (list_max (map String.length lines)))
             lines (align lines).
Proof.
  split; [apply length_map|].
  unfold align. rewrite longestOf_max.
  assert (H : forall M, (forall l, In l lines -> String.length l <= M) ->
                        Forall2 (alignedEntry M) lines (map (padTo M) lines)).
  { intro M. induction lines as [|l lines IH]; intro Hle; simpl; constructor.
    - destruct l as [|c l]; [reflexivity|]. split; [reflexivity|].
      apply padTo_length; [discriminate | apply Hle; now left].
    - apply IH. intros x Hx. apply Hle. now right. }
  apply H. intros l Hl. now apply length_le_list_max.
Qed.

(** C9. [align] is idempotent: aligning an aligned list changes nothing. *)
Theorem align_idempotent (lines : list string) :
  align (align lines) = align lines.
Proof.
  pose proof (align_lengths lines) as Hu.
  set (m := list_max (map String.length lines)) in Hu.
  unfold align at 1. rewrite longestOf_max.
  destruct (pad_uniform m (align lines) Hu 0 (or_introl eq_refl)) as [H0|Hm];
    rewrite Nat.max_0_l in *.
  - rewrite H0. apply (padTo_uniform m); [exact Hu | right].
    split; [reflexivity | now apply list_max_zero_empty].
  - rewrite Hm. apply (padTo_uniform m); [exact Hu | now left].
Qed.

(** ** Indentation *)

Section Indentation.

Variable new : string.

(** Replacing the one-byte string [nl] goes byte by byte. *)
Lemma Replace_nl_empty : strings.Replace EmptyString nl new = EmptyString.
Proof. reflexivity. Qed.

Lemma Replace_nl_cons (c : ascii) (rest : string) :
  strings.Replace (String c rest) nl new
  = if Ascii.eqb c LF then new ++ strings.Replace rest nl new
    else String c (strings.Replace rest nl new).
Proof.
  unfold strings.Replace, nl. cbn [strings.replaceFrom String.prefix].
  destruct (ascii_dec LF c) as [<-|Hne].
  - rewrite Ascii.eqb_refl. destruct rest; reflexivity.
  - destruct (Ascii.eqb_spec c LF) as [->|_]; [congruence | reflexivity].
Qed.

Lemma Replace_nl_append (s t : string) :
  strings.Replace (s ++ t) nl new
  = strings.Replace s nl new ++ strings.Replace t nl new.
Proof.
  induction s as [|c s IH]; [reflexivity|].
  cbn [append]. rewrite !Replace_nl_cons, IH.
  destruct (Ascii.eqb c LF); [now rewrite append_assoc | reflexivity].
Qed.

Lemma Replace_nl_none (s : string) :
  countNL s = 0 -> strings.Replace s nl new = s.
Proof.
  induction s as [|c s IH]; [reflexivity|].
  rewrite Replace_nl_cons. simpl. destruct (Ascii.eqb c LF); [discriminate|].
  intro H. now rewrite IH.
Qed.

End Indentation.

Lemma indentString_append (s t prefix : string) :
  indentString (s ++ t) prefix = indentString s prefix ++ indentString t prefix.
Proof. apply Replace_nl_append. Qed.

Lemma indentString_nl (prefix : string) : indentString nl prefix = nl ++ prefix.
Proof. unfold indentString. rewrite (Replace_nl_cons _ LF EmptyString).
       rewrite Ascii.eqb_refl, Replace_nl_empty. apply append_empty_r. Qed.

Lemma indentString_nonempty (s prefix : string) :
  s <> EmptyString -> indentString s prefix <> EmptyString.
Proof.
  destruct s as [|c s]; [congruence|]. intros _. unfold indentString.
  rewrite Replace_nl_cons. destruct (Ascii.eqb c LF); discriminate.
Qed.

Lemma countNL_append (s t : string) :
  countNL (s ++ t) = countNL s + countNL t.
Proof.
  induction s as [|c s IH]; simpl; [reflexivity|].
  destruct (Ascii.eqb c LF); simpl; now rewrite IH.
Qed.

Lemma splitLines_length (s : string) :
  List.length (splitLines s) = countNL s + 1.
Proof.
  induction s as [|c s IH]; simpl; [reflexivity|].
  destruct (Ascii.eqb c LF); simpl; [now rewrite IH|].
  destruct (splitLines s); simpl in *; lia.
Qed.

(** The lines of [p ++ s] for a prefix without line break. *)
Lemma splitLines_prefixed (p s : string) :
  countNL p = 0 ->
  splitLines (p ++ s)
  = (p ++ hd EmptyString (splitLines s)) :: tl (splitLines s).
Proof.
  induction p as [|c p IH]; simpl.
  - intros _. destruct s as [|d s]; [reflexivity|]. simpl.
    destruct (Ascii.eqb d LF); [reflexivity|].
    destruct (splitLines s); reflexivity.
  - destruct (Ascii.eqb c LF); [discriminate|]. intro H.
    now rewrite (IH H).
Qed.

(** Indentation with a prefix that has no line break keeps the first line
    and puts the prefix in front of every other line. *)
Lemma splitLines_indentString (text prefix : string) :
  countNL prefix = 0 ->
  splitLines (indentString text prefix)
  = hd EmptyString (splitLines text)
    :: map (append prefix) (tl (splitLines text)).
Proof.
  intro Hp. unfold indentString.
  set (new := nl ++ prefix).
  induction text as [|c text IH]; [reflexivity|].
  rewrite Replace_nl_cons. cbn [splitLines].
  destruct (Ascii.eqb c LF) eqn:E.
  - unfold new at 1. rewrite append_assoc.
    change (nl ++ (prefix ++ strings.Replace text nl new))
      with (String LF (prefix ++ strings.Replace text nl new)).
    cbn [splitLines]. rewrite Ascii.eqb_refl.
    rewrite (splitLines_prefixed _ _ Hp), IH. clear IH.
    pose proof (splitLines_length text) as Hlen.
    destruct (splitLines text); simpl in *; [lia | reflexivity].
  - cbn [splitLines]. rewrite E, IH.
    destruct (splitLines text); reflexivity.
Qed.

Lemma prefix_append (p s : string) : String.prefix p (p ++ s) = true.
Proof.
  induction p as [|c p IH]; simpl; [now destruct s|].
  destruct (ascii_dec c c); [exact IH | congruence].
Qed.

(** C5, as stated, fails: indenting the two-line text [a\nb] with the prefix
    [\n] gives [a\n\nb], which has three lines, the last of which does not
    start with the prefix. *)
Lemma indentString_newline_prefix_breaks_lines :
  indentString ("a" ++ nl ++ "b") nl = "a" ++ nl ++ nl ++ "b"
  /\ ~ indentKeepsLines ("a" ++ nl ++ "b") nl.
Proof.
  split; [reflexivity|].
  intros [Hcount _]. vm_compute in Hcount. discriminate.
Qed.

(** C5, amended. For every text and every prefix without a line break,
    [indentString] keeps the number of lines (line breaks plus one), and in
    the result every line except the first starts with the prefix. *)
Theorem indentString_keeps_lines (text prefix : string) :
  countNL prefix = 0 -> indentKeepsLines text prefix.
Proof.
  intro Hp. pose proof (splitLines_indentString text prefix Hp) as Hs.
  split.
  - rewrite <- !splitLines_length, Hs.
    pose proof (splitLines_length text) as Hlen.
    destruct (splitLines text); simpl in *; [lia|].
    now rewrite length_map.
  - rewrite Hs. cbn [tl]. apply Forall_forall. intros l Hl.
    apply in_map_iff in Hl. destruct Hl as [x [<- _]]. apply prefix_append.
Qed.

Lemma indentString_keeps_lines_witness :
  indentKeepsLines ("usage" ++ nl ++ "first" ++ nl ++ "second") indentStr.
Proof. apply indentString_keeps_lines. reflexivity. Defined.

(** ** Usage formatter *)

Lemma Sprintf_requiredArg (s : string) :
  fmt.Sprintf requiredArg [s] = "<" ++ s ++ ">".
Proof. reflexivity. Qed.

Lemma Sprintf_optionalArg (s : string) :
  fmt.Sprintf optionalArg [s] = "[<" ++ s ++ ">]".
Proof. reflexivity. Qed.

Lemma Sprintf_variadicArg (s : string) :
  fmt.Sprintf variadicArg [s] = s ++ "...".
Proof. reflexivity. Qed.

(** C6. [argUsageText] renders a required argument as [<name>], an optional
    one as [[<name>]], and appends [...] to that for a variadic argument; a
    required variadic argument named [file] renders as [<file>...]. *)
Theorem argUsageText_decoration (arg : Argument) :
  argUsageText arg
  = (let wrapped := if arg_Required arg
                    then "<" ++ arg_Name arg ++ ">"
                    else "[<" ++ arg_Name arg ++ ">]" in
     if arg_Variadic arg then wrapped ++ "..." else wrapped)
  /\ (forall description,
        argUsageText (mkArgument "file" true true description) = "<file>...").
Proof.
  split; [|reflexivity].
  unfold argUsageText. destruct arg as [name [|] [|] description]; reflexivity.
Qed.

Lemma argUsageText_nonempty (arg : Argument) : argUsageText arg <> EmptyString.
Proof.
  unfold argUsageText.
  destruct arg as [name [|] [|] description]; cbn;
    try discriminate; destruct name; discriminate.
Qed.

(** The loop of [usageText] joins the renderings with single spaces. *)
Lemma usageLoop_join (args : list Argument) (i : nat) (s : string) :
  usageLoop (S i) s args
  = s ++ strings.Join (EmptyString :: map argUsageText args) " ".
Proof.
  revert i s. induction args as [|arg args IH]; intros i s.
  - simpl. now rewrite append_empty_r.
  - cbn [usageLoop Nat.eqb negb map]. rewrite IH.
    unfold strings.Join. cbn [String.concat].
    destruct args; cbn [map String.concat];
      rewrite !append_assoc, ?append_empty_r; reflexivity.
Qed.

Lemma usageText_join (cmd : Command) :
  usageText cmd = strings.Join (map argUsageText (cmd_Arguments cmd)) " ".
Proof.
  unfold usageText. destruct (cmd_Arguments cmd) as [|arg args]; [reflexivity|].
  cbn [usageLoop Nat.eqb negb]. rewrite usageLoop_join.
  unfold strings.Join. cbn [map String.concat append].
  destruct args; cbn [map String.concat]; [now rewrite append_empty_r|].
  reflexivity.
Qed.

(** ** Templates *)

(** [init] does not panic: both formats parse. *)
Lemma init_parses : init = Some parsedTemplates.
Proof. vm_compute. reflexivity. Qed.

Lemma longHelpTemplate_parsed : longHelpTemplate = parsedTemplates.
Proof. unfold longHelpTemplate. now rewrite init_parses. Qed.

(** Executing the usage template writes the usage line. *)
Lemma Execute_usage (f : helpFields) (out : Writer) :
  Execute longHelpTemplate "usage" out f = (out ++ usageLine f, None).
Proof.
  rewrite longHelpTemplate_parsed.
  unfold Execute, usageLine. destruct f as [ind pa au ta ar op su de].
  destruct au; cbn; f_equal; by_assoc.
Qed.

(** Executing the long-help template writes the long-help text, whatever
    the fields. *)
Lemma Execute_longHelp (f : helpFields) (out : Writer) :
  Execute longHelpTemplate "longHelp" out f = (out ++ longHelpText f, None).
Proof.
  rewrite longHelpTemplate_parsed.
  unfold Execute, longHelpText, usageLine, sectionText, hintLine.
  destruct f as [ind pa au ta ar op su de].
  destruct au, ar, op, su, de; cbn; f_equal; by_assoc.
Qed.

(** ** The composer *)

Section ComposerFacts.

Variable argumentGen : Command -> list string.
Variable optionGen : list Command -> list string.
Variable subcommandGen : Command -> string -> list string -> list string.

(** A resolved command is rendered in full, without error. *)
Lemma LongHelpWith_renders (rootName : string) (root cmd : Command)
  (path : list string) (out : Writer) :
  Get root path = inl cmd ->
  LongHelpWith argumentGen optionGen subcommandGen rootName root path out
  = (out ++ longHelpText
              (composeFields argumentGen optionGen subcommandGen
                             rootName cmd path),
     None).
Proof.
  intro Hget. unfold LongHelpWith. rewrite Hget. apply Execute_longHelp.
Qed.

(** A path that does not resolve writes nothing. *)
Lemma LongHelpWith_fails (rootName : string) (root : Command)
  (path : list string) (out : Writer) (e : error) :
  Get root path = inr e ->
  LongHelpWith argumentGen optionGen subcommandGen rootName root path out
  = (out, Some e).
Proof. intro Hget. unfold LongHelpWith. now rewrite Hget. Qed.

(** An explicit option help is the options field, whatever the generator. *)
Lemma composeFields_OptionHelp (rootName : string) (cmd : Command)
  (path : list string) :
  cmd_OptionHelp cmd <> EmptyString ->
  composeFields argumentGen optionGen subcommandGen rootName cmd path
  = composeFields argumentGen optionText subcommandGen rootName cmd path.
Proof.
  intro Hne. unfold composeFields.
  destruct (cmd_OptionHelp cmd) as [|c rest]; [congruence | reflexivity].
Qed.

End ComposerFacts.

Lemma Get_absent (root : Command) (path : list string) :
  absentSegment root path -> Get root path = inr (CommandNotFound path).
Proof.
  induction 1 as [root name rest Hnone | root sub name rest Hsome _ IH];
    cbn [Get].
  - now rewrite Hnone.
  - now rewrite Hsome, IH.
Qed.

Lemma sectionText_empty_iff (header indent content extra : string) :
  sectionText header indent content extra = EmptyString
  <-> content = EmptyString.
Proof.
  unfold sectionText. destruct content as [|c content]; cbn [truth].
  - tauto.
  - split; [|discriminate]. destruct header; discriminate.
Qed.

(** C2. For every root command, root name and path with a segment absent
    from the command tree, [LongHelp] returns the not-found error and leaves
    the output sink as it was. *)
Theorem LongHelp_not_found_writes_nothing (rootName : string) (root : Command)
  (path : list string) (out : Writer) :
  absentSegment root path ->
  LongHelp rootName root path out = (out, Some (CommandNotFound path)).
Proof.
  intro Habs. apply LongHelpWith_fails. now apply Get_absent.
Qed.

Lemma LongHelp_not_found_writes_nothing_witness :
  LongHelp "ipfs" sampleRoot ["list"; "all"] "earlier output"
  = ("earlier output", Some (CommandNotFound ["list"; "all"])).
Proof.
  apply LongHelp_not_found_writes_nothing.
  apply absent_below with (sub := sampleLeaf); [reflexivity|].
  apply absent_here. reflexivity.
Defined.

(** C3. For every command whose [OptionHelp] is not empty, the render does
    not depend on the options generator (any generator in its place gives the
    same render), and the OPTIONS section of the output is the header, a blank
    line, and the explicit string after one [indentString], then a blank
    line. *)
Theorem OptionHelp_overrides_generator (rootName : string) (root cmd : Command)
  (path : list string) (out : Writer) :
  Get root path = inl cmd ->
  cmd_OptionHelp cmd <> EmptyString ->
  (forall optionGen : list Command -> list string,
      LongHelpWith argumentText optionGen subcommandText rootName root path out
      = LongHelp rootName root path out)
  /\ LongHelp rootName root path out
     = (out
        ++ nl ++ indentStr ++ usageLine (fieldsOf rootName cmd path) ++ nl ++ nl
        ++ sectionText "ARGUMENTS:" indentStr
             (Arguments (fieldsOf rootName cmd path)) EmptyString
        ++ ("OPTIONS:" ++ nl ++ nl
            ++ indentStr ++ indentString (cmd_OptionHelp cmd) indentStr
            ++ nl ++ nl)
        ++ sectionText "SUBCOMMANDS:" indentStr
             (Subcommands (fieldsOf rootName cmd path))
             (hintLine (fieldsOf rootName cmd path))
        ++ sectionText "DESCRIPTION:" indentStr
             (Description (fieldsOf rootName cmd path)) EmptyString
        ++ nl,
        None).
Proof.
  intros Hget Hne. split.
  - intro optionGen. unfold LongHelp.
    rewrite !(LongHelpWith_renders _ _ _ _ _ cmd _ _ Hget).
    now rewrite composeFields_OptionHelp.
  - unfold LongHelp. rewrite (LongHelpWith_renders _ _ _ _ _ cmd _ _ Hget).
    fold (fieldsOf rootName cmd path). unfold longHelpText.
    assert (Hopt : Options (fieldsOf rootName cmd path)
                   = indentString (cmd_OptionHelp cmd) indentStr).
    { unfold fieldsOf, composeFields. cbn [Options].
      destruct (cmd_OptionHelp cmd); [congruence | reflexivity]. }
    assert (Hind : Indent (fieldsOf rootName cmd path) = indentStr)
      by reflexivity.
    rewrite Hopt, Hind.
    unfold sectionText at 2.
    pose proof (indentString_nonempty _ indentStr Hne) as Hne'.
    apply truth_nonempty in Hne'. rewrite Hne'.
    rewrite append_empty_r. reflexivity.
Qed.

Lemma OptionHelp_overrides_generator_witness :
  LongHelpWith argumentText (fun _ => ["generated"]) subcommandText
               "ipfs" sampleRoot [] EmptyString
  = LongHelp "ipfs" sampleRoot [] EmptyString.
Proof.
  exact (proj1 (OptionHelp_overrides_generator
                  "ipfs" sampleRoot sampleRoot [] EmptyString
                  eq_refl ltac:(discriminate))
               (fun _ => ["generated"])).
Defined.

Lemma composeFields_Path (rootName : string) (cmd : Command)
  (path : list string) :
  Path (fieldsOf rootName cmd path) = displayPath rootName path.
Proof. destruct path; reflexivity. Qed.

(** C7. In the long help of a resolved command, each of the sections
    ARGUMENTS, OPTIONS, SUBCOMMANDS and DESCRIPTION contributes nothing at all
    (no header, no blank line) exactly when its field is empty, and otherwise
    its header, a blank line, the indented field and a blank line; the
    SUBCOMMANDS section, when present, ends with the hint line; the indent is
    four spaces. *)
Theorem longHelp_sections (rootName : string) (root cmd : Command)
  (path : list string) (out : Writer) :
  Get root path = inl cmd ->
  LongHelp rootName root path out
  = (out
     ++ nl ++ "    " ++ usageLine (fieldsOf rootName cmd path) ++ nl ++ nl
     ++ sectionText "ARGUMENTS:" "    "
          (Arguments (fieldsOf rootName cmd path)) EmptyString
     ++ sectionText "OPTIONS:" "    "
          (Options (fieldsOf rootName cmd path)) EmptyString
     ++ sectionText "SUBCOMMANDS:" "    "
          (Subcommands (fieldsOf rootName cmd path))
          ("    Use '" ++ displayPath rootName path
           ++ " <subcmd> --help' for more information about each command."
           ++ nl ++ nl)
     ++ sectionText "DESCRIPTION:" "    "
          (Description (fieldsOf rootName cmd path)) EmptyString
     ++ nl,
     None)
  /\ (forall header content extra,
         sectionText header "    " content extra = EmptyString
         <-> content = EmptyString)
  /\ (forall header content extra,
         content <> EmptyString ->
         sectionText header "    " content extra
         = header ++ nl ++ nl ++ "    " ++ content ++ nl ++ nl ++ extra)
  /\ indentStr = "    "
  /\ Indent (fieldsOf rootName cmd path) = "    ".
Proof.
  intro Hget. split; [|split; [|split; [|split] ] ].
  - unfold LongHelp. rewrite (LongHelpWith_renders _ _ _ _ _ cmd _ _ Hget).
    fold (fieldsOf rootName cmd path). unfold longHelpText, hintLine.
    rewrite composeFields_Path. reflexivity.
  - intros. apply sectionText_empty_iff.
  - intros header content extra Hne. unfold sectionText.
    apply truth_nonempty in Hne. now rewrite Hne.
  - reflexivity.
  - reflexivity.
Qed.

Lemma longHelp_sections_witness :
  fst (LongHelp "ipfs" sampleRoot ["list"] EmptyString)
  = nl ++ "    ipfs list - list things" ++ nl ++ nl ++ nl.
Proof.
  rewrite (proj1 (longHelp_sections "ipfs" sampleRoot sampleLeaf ["list"]
                                    EmptyString eq_refl)).
  vm_compute. reflexivity.
Defined.

Lemma usageText_no_arguments (cmd : Command) :
  cmd_Arguments cmd = [] -> usageText cmd = EmptyString.
Proof. unfold usageText. now intros ->. Qed.

(** C8. For every command with no argument, [usageText] is the empty string
    and the usage line is the path, [" - "] and the tagline: no arg-usage and
    no second space before the dash. *)
Theorem usage_line_without_arguments (rootName : string) (root cmd : Command)
  (path : list string) (out : Writer) :
  Get root path = inl cmd ->
  cmd_Arguments cmd = [] ->
  usageText cmd = EmptyString
  /\ Execute longHelpTemplate "usage" out (fieldsOf rootName cmd path)
     = (out ++ displayPath rootName path ++ " - " ++ cmd_Description cmd, None)
  /\ exists rest,
       LongHelp rootName root path out
       = (out ++ nl ++ indentStr
          ++ displayPath rootName path ++ " - " ++ cmd_Description cmd
          ++ nl ++ nl ++ rest,
          None).
Proof.
  intros Hget Hargs.
  pose proof (usageText_no_arguments cmd Hargs) as Hu.
  assert (Hline : usageLine (fieldsOf rootName cmd path)
                  = displayPath rootName path ++ " - " ++ cmd_Description cmd).
  { unfold usageLine. rewrite composeFields_Path.
    unfold fieldsOf, composeFields. cbn [ArgUsage Tagline].
    rewrite Hu. reflexivity. }
  split; [exact Hu|]. split.
  - rewrite Execute_usage, Hline. reflexivity.
  - destruct (longHelp_sections rootName root cmd path out Hget) as [Hout _].
    rewrite Hout, Hline. eexists.
    rewrite !append_assoc. reflexivity.
Qed.

Lemma usage_line_without_arguments_witness :
  usageText sampleLeaf = EmptyString
  /\ Execute longHelpTemplate "usage" "$ " (fieldsOf "ipfs" sampleLeaf ["list"])
     = ("$ ipfs list - list things", None).
Proof.
  destruct (usage_line_without_arguments "ipfs" sampleRoot sampleLeaf ["list"]
              "$ " eq_refl eq_refl) as [Hu [He _]].
  split; [exact Hu | exact He].
Defined.

(** ** Options generator *)

Section NamesLoop.

Variable j : nat.

Lemma namesStep_done (st : list string * bool * nat) (opt : Option) :
  snd (fst (namesStep j st opt)) = false ->
  snd (fst st) = false \/ j + 1 < List.length (opt_Names opt).
Proof.
  destruct st as [[lines done] i]. unfold namesStep.
  destruct (j + 1 <? List.length (opt_Names opt))%nat eqn:E; cbn [fst snd].
  - intros _. right. now apply Nat.ltb_lt.
  - intro H. now left.
Qed.

Lemma namesFold_done (options : list Option) (st : list string * bool * nat) :
  snd (fst (fold_left (namesStep j) options st)) = false ->
  snd (fst st) = false
  \/ exists opt, In opt options /\ j + 1 < List.length (opt_Names opt).
Proof.
  revert st. induction options as [|opt options IH]; intros st H.
  - now left.
  - cbn [fold_left] in H. destruct (IH _ H) as [Hst | [o [Hin Hlt] ] ].
    + destruct (namesStep_done _ _ Hst) as [H0 | Hlt]; [now left | right].
      exists opt. split; [now left | exact Hlt].
    + right. exists o. split; [now right | exact Hlt].
Qed.

(** A pass that is not [done] has seen an option with an alias left. *)
Lemma namesPass_not_done (options : list Option) (lines lines' : list string) :
  namesPass j options lines = (lines', false) ->
  exists opt, In opt options /\ j + 1 < List.length (opt_Names opt).
Proof.
  unfold namesPass. intro H.
  destruct (fold_left (namesStep j) options (lines, true, 0))
    as [[l d] i] eqn:E.
  injection H as _ Hd. subst d.
  destruct (namesFold_done options (lines, true, 0)) as [Hst | Hex].
  - now rewrite E.
  - discriminate Hst.
  - exact Hex.
Qed.

End NamesLoop.

Lemma maxNames_bound (options : list Option) (opt : Option) :
  In opt options -> List.length (opt_Names opt) <= maxNames options.
Proof.
  induction options as [|o options IH]; simpl; [tauto|].
  intros [-> | Hin]; [lia | specialize (IH Hin); lia].
Qed.

Lemma namesLoop_enough (options : list Option) (fuel j : nat)
  (lines : list string) :
  maxNames options <= j + fuel -> 1 <= fuel ->
  exists result, namesLoop fuel j options lines = Some result.
Proof.
  revert j lines. induction fuel as [|fuel IH]; intros j lines Hmax Hfuel;
    [lia|].
  cbn [namesLoop]. destruct (namesPass j options lines) as [l d] eqn:E.
  destruct d; [now exists l|].
  destruct (namesPass_not_done _ _ _ _ E) as [opt [Hin Hlt] ].
  pose proof (maxNames_bound _ _ Hin). apply IH; lia.
Qed.

(** The outer loop of [optionText] leaves through [break]: the passes it
    is given are enough. *)
Lemma namesLoop_terminates (options : list Option) :
  exists lines, namesLoop (S (maxNames options)) 0 options [] = Some lines.
Proof. apply namesLoop_enough; lia. Qed.

(** C1, on the code. With the options [{v, verbose}: bool] and [{x}: bool],
    the first line is [-v, -verbose (bool)], but the second is [-x   (bool)]:
    the names column of the second option is padded only to the width after
    the first alias, so the type starts at offset 13 in the first line and at
    offset 5 in the second. *)
Theorem optionText_type_column_not_aligned :
  let verbose := mkOption ["v"; "verbose"] "bool" "be verbose" in
  let short := mkOption ["x"] "bool" "extract" in
  let cmd := mkCommand "" "" "" "" "" [] [verbose; short] [] in
  optionText [cmd]
  = ["-v, -verbose (bool)" ++ nl ++ "    be verbose" ++ nl;
     "-x   (bool)        " ++ nl ++ "    extract" ++ nl]
  /\ String.index 0 "(bool)" (nth 0 (optionColumns [verbose; short]) "")
     = Some 13
  /\ String.index 0 "(bool)" (nth 1 (optionColumns [verbose; short]) "")
     = Some 5.
Proof. vm_compute. repeat split. Qed.

(** ** Subcommands generator *)

Lemma subcommand_prefix (rootName : string) (path : list string) :
  (let prefix := fmt.Sprintf "%v %v" [rootName; strings.Join path " "] in
   if (0 <? List.length path)%nat then prefix ++ " " else prefix)
  = entryPrefix rootName path.
Proof.
  destruct path as [|segment path]; cbn [List.length Nat.ltb Nat.leb].
  - cbn. rewrite ?append_empty_r. reflexivity.
  - unfold entryPrefix. cbn [fmt.Sprintf].
    rewrite !append_assoc, ?append_empty_r. reflexivity.
Qed.

Lemma Sprintf_entry (prefix name usage : string) :
  fmt.Sprintf "%v%v %v" [prefix; name; usage] = (prefix ++ name) ++ " " ++ usage.
Proof.
  transitivity (prefix ++ name ++ " " ++ usage ++ EmptyString);
    [reflexivity|].
  now rewrite append_empty_r, append_assoc.
Qed.

Lemma Sprintf_description (description : string) :
  fmt.Sprintf (nl ++ "%v") [description] = nl ++ description.
Proof.
  transitivity (nl ++ description ++ EmptyString); [reflexivity|].
  now rewrite append_empty_r.
Qed.

(** The entry of a subcommand without arguments. *)
Lemma subcommand_entry (prefix name description : string) :
  indentString
    (fmt.Sprintf "%v%v %v" [prefix; name; EmptyString]
     ++ fmt.Sprintf (nl ++ "%v") [description]) "    " ++ nl
  = indentString (prefix ++ name) "    " ++ " " ++ nl ++ "    "
    ++ indentString description "    " ++ nl.
Proof.
  rewrite Sprintf_entry, Sprintf_description.
  rewrite !indentString_append, indentString_nl.
  change (indentString " " "    ") with " ".
  rewrite !append_assoc. reflexivity.
Qed.

(** C10. The render of every command that resolves succeeds and starts
    with a line break, followed by the indented usage line, and every
    successful render is such a render; in [subcommandText] the entry of a
    subcommand with no argument has a space after its name, at the end of its
    first line, while the usage template, executed for that subcommand,
    writes no space between the path and the one before the dash. *)
Theorem render_leading_newline_entry_trailing_space :
  (forall rootName root path cmd out,
      Get root path = inl cmd ->
      exists rest,
        LongHelp rootName root path out
        = (out ++ nl ++ indentStr
               ++ usageLine (fieldsOf rootName cmd path) ++ rest,
           None))
  /\ (forall rootName root path out out',
         LongHelp rootName root path out = (out', None) ->
         exists cmd rest,
           Get root path = inl cmd
           /\ out' = out ++ nl ++ indentStr
                     ++ usageLine (fieldsOf rootName cmd path) ++ rest)
  /\ (forall cmd rootName path i name sub out,
         nth_error (cmd_Subcommands cmd) i = Some (name, sub) ->
         cmd_Arguments sub = [] ->
         nth_error (subcommandText cmd rootName path) i
         = Some (indentString (entryPrefix rootName path ++ name) "    "
                 ++ " " ++ nl
                 ++ "    " ++ indentString (cmd_Description sub) "    " ++ nl)
         /\ Execute longHelpTemplate "usage" out
                    (fieldsOf rootName sub (path ++ [name]))
            = (out ++ displayPath rootName (path ++ [name])
                   ++ " - " ++ cmd_Description sub,
               None)).
Proof.
  split; [|split].
  - intros rootName root path cmd out Hget.
    unfold LongHelp. rewrite (LongHelpWith_renders _ _ _ _ _ cmd _ _ Hget).
    fold (fieldsOf rootName cmd path). eexists.
    unfold longHelpText. rewrite ?append_assoc. reflexivity.
  - intros rootName root path out out' H.
    unfold LongHelp, LongHelpWith in H.
    destruct (Get root path) as [cmd | e] eqn:Hget; [|discriminate].
    rewrite Execute_longHelp in H. injection H as <-.
    exists cmd. eexists. split; [reflexivity|].
    unfold longHelpText. rewrite ?append_assoc. reflexivity.
  - intros cmd rootName path i name sub out Hnth Hargs. split.
    + unfold subcommandText. rewrite subcommand_prefix.
      rewrite nth_error_map, Hnth. cbn [option_map].
      rewrite (usageText_no_arguments sub Hargs).
      now rewrite subcommand_entry.
    + rewrite Execute_usage. unfold usageLine. rewrite composeFields_Path.
      unfold fieldsOf, composeFields. cbn [ArgUsage Tagline].
      now rewrite (usageText_no_arguments sub Hargs).
Qed.

Lemma render_leading_newline_entry_trailing_space_witness :
  (exists rest,
      LongHelp "ipfs" sampleRoot [] "$ "
      = ("$ " ++ nl ++ "    ipfs <name> - a tool" ++ rest, None))
  /\ (exists cmd rest,
         Get sampleRoot ["list"] = inl cmd
         /\ nl ++ "    ipfs list - list things" ++ nl ++ nl ++ nl
            = EmptyString ++ nl ++ indentStr
              ++ usageLine (fieldsOf "ipfs" cmd ["list"]) ++ rest)
  /\ (nth_error (subcommandText sampleRoot "ipfs" []) 0
      = Some ("ipfs list " ++ nl ++ "    list things" ++ nl)
      /\ Execute longHelpTemplate "usage" "$ "
                 (fieldsOf "ipfs" sampleLeaf ["list"])
         = ("$ ipfs list - list things", None)).
Proof.
  split; [|split].
  - exact (proj1 render_leading_newline_entry_trailing_space
                 "ipfs" sampleRoot [] sampleRoot "$ " eq_refl).
  - exact (proj1 (proj2 render_leading_newline_entry_trailing_space)
                 "ipfs" sampleRoot ["list"] EmptyString
                 (nl ++ "    ipfs list - list things" ++ nl ++ nl ++ nl)
                 ltac:(vm_compute; reflexivity)).
  - exact (proj2 (proj2 render_leading_newline_entry_trailing_space)
                 sampleRoot "ipfs" [] 0 "list" sampleLeaf "$ "
                 eq_refl eq_refl).
Defined.

(** * Further properties of the generators and the composer *)

(** ** Index updates *)

Lemma update_length (i : nat) (f : string -> string) (lines : list string) :
  List.length (update i f lines) = List.length lines.
Proof.
  revert i. induction lines as [|l lines IH]; intro i; [now destruct i|].
  destruct i; simpl; [reflexivity | now rewrite IH].
Qed.

Lemma update_at_end (f : string -> string) (pre : list string) (l : string)
  (rest : list string) :
  update (List.length pre) f (pre ++ l :: rest)%list = (pre ++ f l :: rest)%list.
Proof. induction pre as [|p pre IH]; simpl; [reflexivity | now rewrite IH]. Qed.

(** A [range] loop that rewrites [lines[i]] from [options[i]] treats the two
    lists position by position. *)
Lemma rangeUpdate_from (f : Option -> string -> string) (options : list Option) :
  forall pre ls : list string,
    List.length ls = List.length options ->
    rangeUpdate f (List.length pre) options (pre ++ ls)%list
    = (pre ++ map (fun p => f (fst p) (snd p)) (combine options ls))%list.
Proof.
  induction options as [|opt options IH]; intros pre ls Hlen.
  - destruct ls; [|discriminate]. reflexivity.
  - destruct ls as [|l ls]; [discriminate|]. injection Hlen as Hlen.
    cbn [rangeUpdate combine map fst snd]. rewrite update_at_end.
    replace (S (List.length pre)) with (List.length (pre ++ [f opt l])%list)
      by (rewrite length_app; simpl; lia).
    replace (pre ++ f opt l :: ls)%list with ((pre ++ [f opt l]) ++ ls)%list
      by (now rewrite <- app_assoc).
    rewrite (IH _ _ Hlen). now rewrite <- app_assoc.
Qed.

Lemma rangeUpdate_combine (f : Option -> string -> string)
  (options : list Option) (ls : list string) :
  List.length ls = List.length options ->
  rangeUpdate f 0 options ls
  = map (fun p => f (fst p) (snd p)) (combine options ls).
Proof. intro Hlen. exact (rangeUpdate_from f options [] ls Hlen). Qed.

Lemma align_length (lines : list string) :
  List.length (align lines) = List.length lines.
Proof. apply length_map. Qed.

(** ** The names loop keeps one line per option *)

Lemma namesStep_shape (j : nat) (lines : list string) (done : bool) (i : nat)
  (opt : Option) :
  i <= List.length lines ->
  exists lines' done',
    namesStep j (lines, done, i) opt = (lines', done', S i)
    /\ List.length lines' = Nat.max (List.length lines) (S i).
Proof.
  intro Hi. unfold namesStep.
  destruct (List.length lines <? i + 1)%nat eqn:E;
    [apply Nat.ltb_lt in E | apply Nat.ltb_ge in E];
    destruct (j + 1 <=? List.length (opt_Names opt))%nat;
    destruct (j + 1 <? List.length (opt_Names opt))%nat;
    do 2 eexists; (split; [reflexivity|]);
    rewrite ?update_length, ?length_app; simpl; lia.
Qed.

Lemma namesFold_length (j : nat) (options : list Option) :
  forall (lines : list string) (done : bool) (i : nat),
    i <= List.length lines ->
    List.length (fst (fst (fold_left (namesStep j) options (lines, done, i))))
    = Nat.max (List.length lines) (i + List.length options).
Proof.
  induction options as [|opt options IH]; intros lines done i Hi.
  - simpl. lia.
  - cbn [fold_left].
    destruct (namesStep_shape j lines done i opt Hi) as [l' [d' [-> Hlen] ] ].
    rewrite IH by lia. simpl. lia.
Qed.

Lemma namesPass_length (j : nat) (options : list Option) (lines : list string) :
  List.length (fst (namesPass j options lines))
  = Nat.max (List.length lines) (List.length options).
Proof.
  unfold namesPass.
  pose proof (namesFold_length j options lines true 0 (Nat.le_0_l _)) as H.
  destruct (fold_left (namesStep j) options (lines, true, 0)) as [[l d] i].
  exact H.
Qed.

Lemma namesLoop_length (options : list Option) (fuel : nat) :
  forall (j : nat) (lines result : list string),
    namesLoop fuel j options lines = Some result ->
    List.length result = Nat.max (List.length lines) (List.length options).
Proof.
  induction fuel as [|fuel IH]; intros j lines result H; [discriminate|].
  cbn [namesLoop] in H.
  pose proof (namesPass_length j options lines) as Hp.
  destruct (namesPass j options lines) as [l d]. cbn [fst] in Hp.
  destruct d.
  - injection H as <-. exact Hp.
  - apply IH in H. rewrite align_length in H. lia.
Qed.

(** The lines after the names loop and the type step, before the last
    [align]. *)
Lemma optionColumns_length (options : list Option) :
  List.length (optionColumns options) = List.length options.
Proof.
  unfold optionColumns. rewrite align_length.
  destruct (namesLoop_terminates options) as [lines Hl]. rewrite Hl.
  apply namesLoop_length in Hl. simpl in Hl.
  rewrite rangeUpdate_combine by exact Hl.
  rewrite length_map, length_combine. lia.
Qed.

Lemma Sprintf_optionFlag (name : string) :
  fmt.Sprintf optionFlag [name] = "-" ++ name.
Proof.
  transitivity ("-" ++ name ++ EmptyString); [reflexivity|].
  now rewrite append_empty_r.
Qed.

Lemma Sprintf_optionType (type : string) :
  fmt.Sprintf optionType [type] = "(" ++ type ++ ")".
Proof. reflexivity. Qed.

Lemma map_combine_map {A B C : Type} (g : A * B -> C) (h : A -> B)
  (l : list A) :
  map g (combine l (map h l)) = map (fun x => g (x, h x)) l.
Proof. induction l as [|x l IH]; simpl; [reflexivity | now rewrite IH]. Qed.

Lemma optionText_map (cmd : list Command) :
  optionText cmd
  = map (fun p => optionBlock (fst p) (snd p))
        (combine (flat_map cmd_Options cmd)
                 (optionColumns (flat_map cmd_Options cmd))).
Proof.
  unfold optionText.
  rewrite rangeUpdate_combine by apply optionColumns_length.
  apply map_ext. intros [opt column]. cbn [fst snd]. unfold optionBlock.
  rewrite !indentString_append, indentString_nl.
  now rewrite !append_assoc.
Qed.

Lemma optionText_length (cmd : list Command) :
  List.length (optionText cmd) = List.length (flat_map cmd_Options cmd).
Proof.
  rewrite optionText_map, length_map, length_combine, optionColumns_length.
  lia.
Qed.

(** X1. [optionText] returns one block per option of the commands, in input
    order: the padded names-and-type line, indented, then the description on
    the next line behind one indent, then a line break. *)
Theorem optionText_one_block_per_option (cmd : list Command) :
  List.length (optionText cmd) = List.length (flat_map cmd_Options cmd)
  /\ optionText cmd
     = map (fun p => optionBlock (fst p) (snd p))
           (combine (flat_map cmd_Options cmd)
                    (optionColumns (flat_map cmd_Options cmd))).
Proof. split; [apply optionText_length | apply optionText_map]. Qed.

(** X2. The names-and-type lines [optionText] builds all have the same
    length, and none is empty: the last [align] makes the table
    rectangular. *)
Theorem optionColumns_rectangular (options : list Option) :
  Forall (fun line =>
            1 <= String.length line
            /\ String.length line
               = list_max (map String.length (optionColumns options)))
         (optionColumns options).
Proof.
  destruct (namesLoop_terminates options) as [lines Hl].
  pose proof (namesLoop_length _ _ _ _ _ Hl) as Hlen. simpl in Hlen.
  assert (Hcols : optionColumns options
                  = align (map (fun p => snd p
                                         ++ (" " ++ fmt.Sprintf optionType
                                                      [opt_Type (fst p)]))
                               (combine options lines))).
  { unfold optionColumns. rewrite Hl.
    now rewrite rangeUpdate_combine by exact Hlen. }
  set (typed := map _ (combine options lines)) in Hcols.
  assert (Hne : Forall (fun l => l <> EmptyString) typed).
  { apply Forall_forall. intros l Hin. apply in_map_iff in Hin.
    destruct Hin as [[o x] [<- _] ]. cbn [fst snd].
    destruct x; discriminate. }
  assert (Hall : Forall (fun r => 1 <= String.length r
                                  /\ String.length r
                                     = list_max (map String.length typed))
                        (align typed)).
  { unfold align. rewrite longestOf_max. apply Forall_forall.
    intros r Hin. apply in_map_iff in Hin. destruct Hin as [l [<- Hin] ].
    pose proof (proj1 (Forall_forall _ _) Hne l Hin) as Hl0.
    pose proof (length_le_list_max typed l Hin) as Hle.
    rewrite (padTo_length _ l Hl0 Hle).
    split; [|reflexivity]. destruct l; [congruence | simpl in Hle; lia]. }
  rewrite Hcols.
  assert (Hmax : list_max (map String.length (align typed))
                 = list_max (map String.length typed)).
  { destruct typed as [|t typed']; [reflexivity|].
    apply Nat.le_antisymm.
    - apply list_max_le. apply Forall_forall. intros n Hn.
      apply in_map_iff in Hn. destruct Hn as [r [<- Hr] ].
      pose proof (proj1 (Forall_forall _ _) Hall r Hr) as [_ ->]. lia.
    - assert (Hin : In (padTo (longestOf (t :: typed')) t)
                         (align (t :: typed')))
        by (unfold align; cbn [map]; now left).
      pose proof (proj1 (Forall_forall _ _) Hall _ Hin) as [_ Hr].
      rewrite <- Hr. now apply length_le_list_max. }
  rewrite Hmax. exact Hall.
Qed.

Lemma namesLoop_more_fuel (options : list Option) (fuel : nat) :
  forall (j : nat) (lines result : list string) (extra : nat),
    namesLoop fuel j options lines = Some result ->
    namesLoop (fuel + extra) j options lines = Some result.
Proof.
  induction fuel as [|fuel IH]; intros j lines result extra H; [discriminate|].
  cbn [namesLoop Nat.add] in *.
  destruct (namesPass j options lines) as [l d]. destruct d; [exact H|].
  now apply IH.
Qed.

(** X3. The names loop of [optionText] ends: it leaves through [break] after
    at most as many passes as the longest alias list has names (one pass when
    there is no option or no alias), and more passes allowed change
    nothing. *)
Theorem optionText_names_loop_ends (options : list Option) :
  exists lines,
    List.length lines = List.length options
    /\ forall fuel, Nat.max 1 (maxNames options) <= fuel ->
                    namesLoop fuel 0 options [] = Some lines.
Proof.
  destruct (namesLoop_enough options (Nat.max 1 (maxNames options)) 0 [])
    as [lines Hl]; [lia | lia |].
  exists lines. split.
  - apply namesLoop_length in Hl. simpl in Hl. exact Hl.
  - intros fuel Hfuel.
    replace fuel with (Nat.max 1 (maxNames options)
                       + (fuel - Nat.max 1 (maxNames options))) by lia.
    now apply namesLoop_more_fuel.
Qed.

Lemma namesFold_single (options : list Option) :
  forall (pre : list string) (done : bool),
    Forall (fun opt => List.length (opt_Names opt) = 1) options ->
    fold_left (namesStep 0) options (pre, done, List.length pre)
    = ((pre ++ map (fun opt =>
                      ("-" ++ nth 0 (opt_Names opt) EmptyString)%string)
                   options)%list,
       done, List.length pre + List.length options).
Proof.
  induction options as [|opt options IH]; intros pre done Hall.
  - simpl. now rewrite app_nil_r, Nat.add_0_r.
  - inversion Hall as [|o os Hone Hrest]; subst.
    cbn [fold_left]. unfold namesStep at 2. rewrite Hone.
    replace (List.length pre <? List.length pre + 1)%nat with true
      by (symmetry; apply Nat.ltb_lt; lia).
    cbn [Nat.add Nat.leb Nat.ltb].
    rewrite update_at_end, Sprintf_optionFlag. cbn [append].
    replace (S (List.length pre))
      with (List.length
              (pre ++ [("-" ++ nth 0 (opt_Names opt) EmptyString)%string])%list)
      by (rewrite length_app; simpl; lia).
    rewrite (IH _ _ Hrest). rewrite <- app_assoc, length_app.
    cbn [map app List.length]. f_equal. lia.
Qed.

(** X4. When every option has exactly one alias, the names loop does a
    single pass and never pads the names: each line is the flag, one space
    and the type, and only the line ends are padded.  So the types line up
    only if the names have the same length. *)
Theorem optionColumns_single_alias (options : list Option) :
  Forall (fun opt => List.length (opt_Names opt) = 1) options ->
  optionColumns options = align (map singleAliasLine options).
Proof.
  intro Hall. unfold optionColumns. cbn [namesLoop]. unfold namesPass.
  pose proof (namesFold_single options [] true Hall) as Hfold.
  cbn [List.length app Nat.add] in Hfold. rewrite Hfold.
  rewrite rangeUpdate_combine by apply length_map.
  rewrite map_combine_map. reflexivity.
Qed.

Lemma optionColumns_single_alias_witness :
  optionColumns [mkOption ["f"] "bool" "force";
                 mkOption ["output"] "string" "where to write"]
  = ["-f (bool)       "; "-output (string)"].
Proof.
  exact (optionColumns_single_alias
           [mkOption ["f"] "bool" "force";
            mkOption ["output"] "string" "where to write"]
           ltac:(repeat constructor)).
Defined.

(** ** More on indentation *)

Lemma indentString_cons (c : ascii) (rest prefix : string) :
  indentString (String c rest) prefix
  = if Ascii.eqb c LF then (nl ++ prefix) ++ indentString rest prefix
    else String c (indentString rest prefix).
Proof. apply Replace_nl_cons. Qed.

Lemma indentString_no_newline (text prefix : string) :
  countNL text = 0 -> indentString text prefix = text.
Proof. apply Replace_nl_none. Qed.

(** X5. [indentString] distributes over concatenation, and its result is
    longer than the text by one prefix for each line break. *)
Theorem indentString_append_length (s t prefix : string) :
  indentString (s ++ t) prefix = indentString s prefix ++ indentString t prefix
  /\ String.length (indentString s prefix)
     = String.length s + countNL s * String.length prefix.
Proof.
  split; [apply Replace_nl_append|].
  induction s as [|c s IH]; [reflexivity|].
  rewrite indentString_cons. cbn [countNL String.length].
  destruct (Ascii.eqb c LF).
  - rewrite length_append, IH. unfold nl. cbn [append String.length]. lia.
  - cbn [String.length]. rewrite IH. lia.
Qed.

(** X6. [indentString] returns the text unchanged when the text has no line
    break, and also when the prefix is empty. *)
Theorem indentString_unchanged (text prefix : string) :
  countNL text = 0 \/ prefix = EmptyString ->
  indentString text prefix = text.
Proof.
  intros [Hnone | ->]; [now apply indentString_no_newline|].
  induction text as [|c text IH]; [reflexivity|].
  rewrite indentString_cons, IH.
  destruct (Ascii.eqb_spec c LF) as [-> | _]; reflexivity.
Qed.

Lemma indentString_unchanged_witness :
  indentString "list things" indentStr = "list things"
  /\ indentString ("a" ++ nl ++ "b") EmptyString = "a" ++ nl ++ "b".
Proof.
  split.
  - exact (indentString_unchanged "list things" indentStr
                                  (or_introl eq_refl)).
  - exact (indentString_unchanged ("a" ++ nl ++ "b") EmptyString
                                  (or_intror eq_refl)).
Defined.

(** X7. Indenting twice with a prefix that has no line break is indenting
    once with the doubled prefix: the second application prefixes the lines
    again, so [indentString] is not idempotent. *)
Theorem indentString_twice (text prefix : string) :
  countNL prefix = 0 ->
  indentString (indentString text prefix) prefix
  = indentString text (prefix ++ prefix).
Proof.
  intro Hp. induction text as [|c text IH]; [reflexivity|].
  rewrite !indentString_cons. destruct (Ascii.eqb c LF) eqn:E.
  - rewrite !indentString_append.
    rewrite indentString_nl, (indentString_no_newline prefix prefix Hp), IH.
    now rewrite !append_assoc.
  - rewrite indentString_cons, E, IH. reflexivity.
Qed.

Lemma indentString_twice_witness :
  indentString (indentString ("a" ++ nl ++ "b") indentStr) indentStr
  = "a" ++ nl ++ "        b".
Proof.
  exact (indentString_twice ("a" ++ nl ++ "b") indentStr eq_refl).
Defined.

Lemma splitLines_nonempty (s : string) : splitLines s <> [].
Proof.
  pose proof (splitLines_length s) as H.
  destruct (splitLines s); [simpl in H; lia | discriminate].
Qed.

(** X8. [indent] keeps the number of entries and, for a prefix without line
    break, puts the prefix in front of every line of every entry, the first
    line included. *)
Theorem indent_prefixes_every_line (lines : list string) (prefix : string) :
  countNL prefix = 0 ->
  List.length (indent lines prefix) = List.length lines
  /\ map splitLines (indent lines prefix)
     = map (fun line => map (append prefix) (splitLines line)) lines.
Proof.
  intro Hp. split; [apply length_map|].
  unfold indent. rewrite map_map. apply map_ext. intro line.
  rewrite (splitLines_prefixed _ _ Hp), (splitLines_indentString _ _ Hp).
  cbn [hd tl]. pose proof (splitLines_nonempty line) as Hne.
  destruct (splitLines line); [congruence | reflexivity].
Qed.

Lemma indent_prefixes_every_line_witness :
  map splitLines (indent ["a" ++ nl ++ "b"; "c"] "  ")
  = [["  a"; "  b"]; ["  c"]].
Proof.
  exact (proj2 (indent_prefixes_every_line ["a" ++ nl ++ "b"; "c"] "  "
                                           eq_refl)).
Defined.

(** ** More on the usage formatter *)

Lemma Join_empty_head (x : string) (xs : list string) (sep : string) :
  strings.Join (x :: xs) sep = EmptyString -> x = EmptyString.
Proof.
  unfold strings.Join. cbn [String.concat]. destruct xs; [tauto|].
  destruct x; [reflexivity | discriminate].
Qed.

(** X9. [usageText] is the renderings of the arguments, in order, joined by
    single spaces; it is empty only for a command without arguments. *)
Theorem usageText_joins_arguments (cmd : Command) :
  usageText cmd = strings.Join (map argUsageText (cmd_Arguments cmd)) " "
  /\ (usageText cmd = EmptyString <-> cmd_Arguments cmd = []).
Proof.
  pose proof (usageText_join cmd) as Hjoin. split; [exact Hjoin|].
  split.
  - rewrite Hjoin. destruct (cmd_Arguments cmd) as [|arg args];
      [reflexivity|].
    cbn [map]. intro H. apply Join_empty_head in H.
    now apply argUsageText_nonempty in H.
  - apply usageText_no_arguments.
Qed.

(** X10. The rendering of an argument is never empty: it is the name plus
    two bytes of brackets when required and four when optional, plus three
    dots when variadic. *)
Theorem argUsageText_length (arg : Argument) :
  String.length (argUsageText arg)
  = String.length (arg_Name arg)
    + (if arg_Required arg then 2 else 4)
    + (if arg_Variadic arg then 3 else 0).
Proof.
  unfold argUsageText.
  destruct arg as [name [|] [|] description]; cbn [arg_Name arg_Required
    arg_Variadic]; rewrite ?Sprintf_variadicArg, ?Sprintf_requiredArg,
    ?Sprintf_optionalArg; cbn [append String.length];
    rewrite ?length_append; cbn [String.length]; lia.
Qed.

(** X11. For a resolved command with at least one argument the usage
    template writes the path, a space, the arg-usage, [" - "] and the
    tagline, and the long help starts with a line break, the indent, that
    line and a blank line. *)
Theorem usage_line_with_arguments (rootName : string) (root cmd : Command)
  (path : list string) (out : Writer) :
  Get root path = inl cmd ->
  cmd_Arguments cmd <> [] ->
  fst (Execute longHelpTemplate "usage" out (fieldsOf rootName cmd path))
  = out ++ displayPath rootName path ++ " " ++ usageText cmd
        ++ " - " ++ cmd_Description cmd
  /\ exists rest,
       fst (LongHelp rootName root path out)
       = out ++ nl ++ indentStr
             ++ displayPath rootName path ++ " " ++ usageText cmd
             ++ " - " ++ cmd_Description cmd
             ++ nl ++ nl ++ rest.
Proof.
  intros Hget Hargs.
  assert (Hne : usageText cmd <> EmptyString).
  { intro H. apply Hargs. rewrite usageText_join in H.
    destruct (cmd_Arguments cmd) as [|arg args]; [reflexivity|].
    cbn [map] in H. apply Join_empty_head in H.
    now apply argUsageText_nonempty in H. }
  apply truth_nonempty in Hne.
  assert (Hline : usageLine (fieldsOf rootName cmd path)
                  = displayPath rootName path ++ " " ++ usageText cmd
                    ++ " - " ++ cmd_Description cmd).
  { unfold usageLine. rewrite composeFields_Path.
    unfold fieldsOf, composeFields. cbn [ArgUsage Tagline].
    rewrite Hne. now rewrite !append_assoc. }
  split.
  - rewrite Execute_usage, Hline. reflexivity.
  - unfold LongHelp. rewrite (LongHelpWith_renders _ _ _ _ _ cmd _ _ Hget).
    fold (fieldsOf rootName cmd path). unfold longHelpText.
    rewrite Hline. cbn [fst]. eexists.
    rewrite ?append_assoc. reflexivity.
Qed.

Lemma usage_line_with_arguments_witness :
  fst (Execute longHelpTemplate "usage" "$ " (fieldsOf "ipfs" sampleRoot []))
  = "$ ipfs <name> - a tool"
  /\ exists rest,
       fst (LongHelp "ipfs" sampleRoot [] "$ ")
       = "$ " ++ nl ++ "    ipfs <name> - a tool" ++ nl ++ nl ++ rest.
Proof.
  exact (usage_line_with_arguments "ipfs" sampleRoot sampleRoot [] "$ "
                                   eq_refl ltac:(discriminate)).
Defined.

(** ** More on the arguments and subcommands generators *)

Lemma countNL_argUsageText (arg : Argument) :
  countNL (argUsageText arg) = countNL (arg_Name arg).
Proof.
  unfold argUsageText.
  destruct arg as [name [|] [|] description]; cbn [arg_Name arg_Required
    arg_Variadic]; rewrite ?Sprintf_variadicArg, ?Sprintf_requiredArg,
    ?Sprintf_optionalArg; cbn [append countNL];
    rewrite ?countNL_append; cbn; lia.
Qed.

(** X12. [argumentText] gives one block per argument, in order.  For an
    argument whose name has no line break the block is its usage rendering,
    a line break, and the description behind one indent (each further line
    of the description behind one indent too), then a line break. *)
Theorem argumentText_blocks (cmd : Command) :
  Forall (fun arg => countNL (arg_Name arg) = 0) (cmd_Arguments cmd) ->
  List.length (argumentText cmd) = List.length (cmd_Arguments cmd)
  /\ argumentText cmd
     = map (fun arg => argUsageText arg ++ nl ++ "    "
                       ++ indentString (arg_Description arg) "    " ++ nl)
           (cmd_Arguments cmd).
Proof.
  intro Hall. split; [apply length_map|].
  unfold argumentText. apply map_ext_in. intros arg Hin.
  pose proof (proj1 (Forall_forall _ _) Hall arg Hin) as Hname.
  rewrite !indentString_append, indentString_nl.
  rewrite (indentString_no_newline (argUsageText arg));
    [|now rewrite countNL_argUsageText].
  now rewrite !append_assoc.
Qed.

Lemma argumentText_blocks_witness :
  argumentText sampleRoot = ["<name>" ++ nl ++ "    the name" ++ nl].
Proof.
  exact (proj2 (argumentText_blocks sampleRoot ltac:(repeat constructor))).
Defined.

(** X13. [subcommandText] gives one entry per subcommand, in the order the
    map is ranged over: the prefix (root name and path), the name, a space
    and the subcommand's arg-usage, indented, then the description behind
    one indent, then a line break. *)
Theorem subcommandText_entries (cmd : Command) (rootName : string)
  (path : list string) :
  List.length (subcommandText cmd rootName path)
  = List.length (cmd_Subcommands cmd)
  /\ subcommandText cmd rootName path
     = map (fun entry : string * Command =>
              indentString (entryPrefix rootName path ++ fst entry ++ " "
                            ++ usageText (snd entry)) "    "
              ++ nl ++ "    "
              ++ indentString (cmd_Description (snd entry)) "    " ++ nl)
           (cmd_Subcommands cmd).
Proof.
  split; [apply length_map|].
  unfold subcommandText. rewrite subcommand_prefix.
  apply map_ext. intros [name sub]. cbn [fst snd].
  rewrite Sprintf_entry, Sprintf_description.
  rewrite !indentString_append, indentString_nl.
  now rewrite !append_assoc.
Qed.

(** ** More on the composer *)

Lemma indentString_empty_iff (s prefix : string) :
  indentString s prefix = EmptyString <-> s = EmptyString.
Proof.
  split; [|now intros ->].
  destruct s as [|c s]; [reflexivity|]. intro H.
  now apply (indentString_nonempty (String c s) prefix) in H.
Qed.

Lemma length_eqb_zero (s : string) :
  (String.length s =? 0)%nat = negb (truth s).
Proof. now destruct s. Qed.

(** The text of a generated section is empty exactly when the generator
    gave no block, provided no block is empty. *)
Lemma Join_blocks_empty_iff (blocks : list string) :
  Forall (fun b => b <> EmptyString) blocks ->
  (strings.Join blocks nl = EmptyString <-> blocks = []).
Proof.
  intro Hall. split; [|now intros ->].
  destruct blocks as [|b blocks]; [reflexivity|]. intro H.
  apply Join_empty_head in H. inversion Hall; subst. congruence.
Qed.

Lemma ends_nl_nonempty (s : string) : s ++ nl <> EmptyString.
Proof. destruct s; discriminate. Qed.

Lemma argumentText_nonempty_blocks (cmd : Command) :
  Forall (fun b => b <> EmptyString) (argumentText cmd).
Proof.
  apply Forall_forall. intros b Hin. apply in_map_iff in Hin.
  destruct Hin as [arg [<- _] ]. apply ends_nl_nonempty.
Qed.

Lemma subcommandText_nonempty_blocks (cmd : Command) (rootName : string)
  (path : list string) :
  Forall (fun b => b <> EmptyString) (subcommandText cmd rootName path).
Proof.
  apply Forall_forall. intros b Hin. apply in_map_iff in Hin.
  destruct Hin as [[name sub] [<- _] ]. apply ends_nl_nonempty.
Qed.

Lemma optionText_nonempty_blocks (cmd : list Command) :
  Forall (fun b => b <> EmptyString) (optionText cmd).
Proof.
  rewrite optionText_map. apply Forall_forall. intros b Hin.
  apply in_map_iff in Hin. destruct Hin as [[opt column] [<- _] ].
  unfold optionBlock. rewrite <- !append_assoc. apply ends_nl_nonempty.
Qed.

Lemma length_zero_nil {A : Type} (l : list A) : List.length l = 0 -> l = [].
Proof. destruct l; [reflexivity | discriminate]. Qed.

Section FieldsEmpty.

Variables (rootName : string) (cmd : Command) (path : list string).

Lemma Arguments_field_empty_iff :
  Arguments (fieldsOf rootName cmd path) = EmptyString
  <-> cmd_ArgumentHelp cmd = EmptyString /\ cmd_Arguments cmd = [].
Proof.
  unfold fieldsOf, composeFields. cbn [Arguments].
  rewrite indentString_empty_iff, length_eqb_zero.
  destruct (cmd_ArgumentHelp cmd) as [|c help]; cbn [truth negb].
  - rewrite (Join_blocks_empty_iff _ (argumentText_nonempty_blocks cmd)).
    unfold argumentText. split.
    + intro H. split; [reflexivity|]. apply length_zero_nil.
      rewrite <- (length_map (fun arg => indentString
                     (argUsageText arg ++ nl ++ arg_Description arg) "    "
                     ++ nl)), H. reflexivity.
    + intros [_ ->]. reflexivity.
  - split; [discriminate | intros [H _]; discriminate].
Qed.

Lemma Options_field_empty_iff :
  Options (fieldsOf rootName cmd path) = EmptyString
  <-> cmd_OptionHelp cmd = EmptyString /\ cmd_Options cmd = [].
Proof.
  unfold fieldsOf, composeFields. cbn [Options].
  rewrite indentString_empty_iff, length_eqb_zero.
  destruct (cmd_OptionHelp cmd) as [|c help]; cbn [truth negb].
  - rewrite (Join_blocks_empty_iff _ (optionText_nonempty_blocks [cmd])).
    pose proof (optionText_length [cmd]) as Hlen.
    cbn [flat_map] in Hlen. rewrite app_nil_r in Hlen. split.
    + intro H. split; [reflexivity|]. apply length_zero_nil.
      now rewrite <- Hlen, H.
    + intros [_ H]. apply length_zero_nil. now rewrite Hlen, H.
  - split; [discriminate | intros [H _]; discriminate].
Qed.

Lemma Subcommands_field_empty_iff :
  Subcommands (fieldsOf rootName cmd path) = EmptyString
  <-> cmd_SubcommandHelp cmd = EmptyString /\ cmd_Subcommands cmd = [].
Proof.
  unfold fieldsOf, composeFields. cbn [Subcommands].
  rewrite indentString_empty_iff, length_eqb_zero.
  destruct (cmd_SubcommandHelp cmd) as [|c help]; cbn [truth negb].
  - rewrite (Join_blocks_empty_iff
               _ (subcommandText_nonempty_blocks cmd rootName path)).
    split.
    + intro H. split; [reflexivity|]. apply length_zero_nil.
      pose proof (f_equal (@List.length string) H) as Hlen.
      unfold subcommandText in Hlen. now rewrite length_map in Hlen.
    + intros [_ H]. unfold subcommandText. now rewrite H.
  - split; [discriminate | intros [H _]; discriminate].
Qed.

Lemma Description_field_empty_iff :
  Description (fieldsOf rootName cmd path) = EmptyString
  <-> cmd_Help cmd = EmptyString.
Proof. apply indentString_empty_iff. Qed.

End FieldsEmpty.

Lemma isEmpty_true_iff (s : string) : isEmpty s = true <-> s = EmptyString.
Proof. unfold isEmpty. destruct s; simpl; split; congruence. Qed.

Lemma noItems_true_iff {A : Type} (l : list A) : noItems l = true <-> l = [].
Proof. destruct l; simpl; split; congruence. Qed.

(** A section of the template is left out under a condition that holds
    exactly when its field is empty. *)
Lemma sectionText_unless (leftOut : bool) (header content extra : string) :
  (content = EmptyString <-> leftOut = true) ->
  sectionText header "    " content extra
  = sectionUnless leftOut header content extra.
Proof.
  intro Hiff. unfold sectionText, sectionUnless.
  destruct content as [|c content]; cbn [truth].
  - now rewrite (proj1 Hiff eq_refl).
  - destruct leftOut; [|reflexivity].
    discriminate (proj2 Hiff eq_refl).
Qed.

(** X15. Which sections the long help of a resolved command has: ARGUMENTS
    is left out of the output exactly when the command has neither an
    argument help nor an argument, OPTIONS when it has neither an option help
    nor an option, SUBCOMMANDS (with its hint line) when it has neither a
    subcommand help nor a subcommand, DESCRIPTION when its help is empty. *)
Theorem sections_left_out_iff (rootName : string) (root cmd : Command)
  (path : list string) (out : Writer) :
  Get root path = inl cmd ->
  fst (LongHelp rootName root path out)
  = out
    ++ nl ++ "    " ++ usageLine (fieldsOf rootName cmd path) ++ nl ++ nl
    ++ sectionUnless
         (isEmpty (cmd_ArgumentHelp cmd) && noItems (cmd_Arguments cmd))
         "ARGUMENTS:" (Arguments (fieldsOf rootName cmd path)) EmptyString
    ++ sectionUnless
         (isEmpty (cmd_OptionHelp cmd) && noItems (cmd_Options cmd))
         "OPTIONS:" (Options (fieldsOf rootName cmd path)) EmptyString
    ++ sectionUnless
         (isEmpty (cmd_SubcommandHelp cmd) && noItems (cmd_Subcommands cmd))
         "SUBCOMMANDS:" (Subcommands (fieldsOf rootName cmd path))
         ("    Use '" ++ displayPath rootName path
          ++ " <subcmd> --help' for more information about each command."
          ++ nl ++ nl)
    ++ sectionUnless (isEmpty (cmd_Help cmd))
         "DESCRIPTION:" (Description (fieldsOf rootName cmd path)) EmptyString
    ++ nl.
Proof.
  intro Hget.
  unfold LongHelp. rewrite (LongHelpWith_renders _ _ _ _ _ cmd _ _ Hget).
  fold (fieldsOf rootName cmd path). cbn [fst].
  unfold longHelpText, hintLine. rewrite composeFields_Path.
  change (Indent (fieldsOf rootName cmd path)) with "    ".
  rewrite (sectionText_unless
             (isEmpty (cmd_ArgumentHelp cmd) && noItems (cmd_Arguments cmd))
             "ARGUMENTS:").
  2:{ rewrite Arguments_field_empty_iff, andb_true_iff,
        isEmpty_true_iff, noItems_true_iff. tauto. }
  rewrite (sectionText_unless
             (isEmpty (cmd_OptionHelp cmd) && noItems (cmd_Options cmd))
             "OPTIONS:").
  2:{ rewrite Options_field_empty_iff, andb_true_iff,
        isEmpty_true_iff, noItems_true_iff. tauto. }
  rewrite (sectionText_unless
             (isEmpty (cmd_SubcommandHelp cmd)
              && noItems (cmd_Subcommands cmd))
             "SUBCOMMANDS:").
  2:{ rewrite Subcommands_field_empty_iff, andb_true_iff,
        isEmpty_true_iff, noItems_true_iff. tauto. }
  rewrite (sectionText_unless (isEmpty (cmd_Help cmd)) "DESCRIPTION:").
  2:{ rewrite Description_field_empty_iff, isEmpty_true_iff. tauto. }
  reflexivity.
Qed.

Lemma sections_left_out_iff_witness :
  fst (LongHelp "ipfs" sampleRoot ["list"] "$ ")
  = "$ " ++ nl ++ "    ipfs list - list things" ++ nl ++ nl ++ nl
  /\ fst (LongHelp "ipfs" sampleRoot [] EmptyString)
     = nl ++ "    ipfs <name> - a tool" ++ nl ++ nl
       ++ "ARGUMENTS:" ++ nl ++ nl
       ++ "    <name>" ++ nl ++ "        the name" ++ nl ++ "    " ++ nl ++ nl
       ++ "OPTIONS:" ++ nl ++ nl
       ++ "    -f  force" ++ nl ++ "    -q  quiet" ++ nl ++ nl
       ++ "SUBCOMMANDS:" ++ nl ++ nl
       ++ "    ipfs list " ++ nl ++ "        list things" ++ nl ++ "    "
       ++ nl ++ nl
       ++ "    Use 'ipfs <subcmd> --help' for more information about each command."
       ++ nl ++ nl
       ++ "DESCRIPTION:" ++ nl ++ nl ++ "    Long help." ++ nl ++ nl ++ nl.
Proof.
  split.
  - exact (sections_left_out_iff "ipfs" sampleRoot sampleLeaf ["list"] "$ "
                                 eq_refl).
  - exact (sections_left_out_iff "ipfs" sampleRoot sampleRoot [] EmptyString
                                 eq_refl).
Defined.

(** X16. A command with no argument, option, subcommand and no help text of
    any kind renders as a blank line, the indented usage line and two blank
    lines, and nothing else. *)
Theorem LongHelp_bare_command (rootName : string) (root cmd : Command)
  (path : list string) (out : Writer) :
  Get root path = inl cmd ->
  cmd_Help cmd = EmptyString ->
  cmd_ArgumentHelp cmd = EmptyString -> cmd_Arguments cmd = [] ->
  cmd_OptionHelp cmd = EmptyString -> cmd_Options cmd = [] ->
  cmd_SubcommandHelp cmd = EmptyString -> cmd_Subcommands cmd = [] ->
  LongHelp rootName root path out
  = (out ++ nl ++ "    " ++ displayPath rootName path ++ " - "
         ++ cmd_Description cmd ++ nl ++ nl ++ nl,
     None).
Proof.
  intros Hget Hh Hah Ha Hoh Ho Hsh Hs.
  unfold LongHelp. rewrite (LongHelpWith_renders _ _ _ _ _ cmd _ _ Hget).
  fold (fieldsOf rootName cmd path). unfold longHelpText.
  rewrite (proj2 (Arguments_field_empty_iff rootName cmd path) (conj Hah Ha)).
  rewrite (proj2 (Options_field_empty_iff rootName cmd path) (conj Hoh Ho)).
  rewrite (proj2 (Subcommands_field_empty_iff rootName cmd path)
                 (conj Hsh Hs)).
  rewrite (proj2 (Description_field_empty_iff rootName cmd path) Hh).
  unfold sectionText, usageLine. cbn [truth append].
  rewrite composeFields_Path. unfold fieldsOf, composeFields.
  cbn [ArgUsage Tagline Indent].
  rewrite (usageText_no_arguments cmd Ha). cbn [truth append].
  unfold indentStr. now rewrite !append_assoc.
Qed.

Lemma LongHelp_bare_command_witness :
  LongHelp "ipfs" sampleRoot ["list"] EmptyString
  = (nl ++ "    ipfs list - list things" ++ nl ++ nl ++ nl, None).
Proof.
  exact (LongHelp_bare_command "ipfs" sampleRoot sampleLeaf ["list"]
           EmptyString eq_refl eq_refl eq_refl eq_refl eq_refl eq_refl
           eq_refl eq_refl).
Defined.

(** X17. For a command whose [ArgumentHelp] is not empty the render does not
    depend on the arguments generator, and the arguments field is that text
    after one [indentString]. *)
Theorem ArgumentHelp_overrides_generator (rootName : string)
  (root cmd : Command) (path : list string) (out : Writer) :
  Get root path = inl cmd ->
  cmd_ArgumentHelp cmd <> EmptyString ->
  (forall argumentGen : Command -> list string,
      LongHelpWith argumentGen optionText subcommandText rootName root path out
      = LongHelp rootName root path out)
  /\ Arguments (fieldsOf rootName cmd path)
     = indentString (cmd_ArgumentHelp cmd) indentStr.
Proof.
  intros Hget Hne.
  assert (Hf : forall argumentGen,
             composeFields argumentGen optionText subcommandText
                           rootName cmd path
             = fieldsOf rootName cmd path).
  { intro argumentGen. unfold fieldsOf, composeFields.
    destruct (cmd_ArgumentHelp cmd); [congruence | reflexivity]. }
  split.
  - intro argumentGen. unfold LongHelp.
    rewrite !(LongHelpWith_renders _ _ _ _ _ cmd _ _ Hget).
    now rewrite Hf.
  - unfold fieldsOf, composeFields. cbn [Arguments].
    destruct (cmd_ArgumentHelp cmd); [congruence | reflexivity].
Qed.

Lemma ArgumentHelp_overrides_generator_witness :
  Arguments (fieldsOf "ipfs"
               (mkCommand "" "" ("<a>" ++ nl ++ "<b>") "" "" [] [] []) [])
  = "<a>" ++ nl ++ "    <b>".
Proof.
  exact (proj2 (ArgumentHelp_overrides_generator
                  "ipfs" (mkCommand "" "" ("<a>" ++ nl ++ "<b>") "" "" [] [] [])
                  _ [] EmptyString eq_refl ltac:(discriminate))).
Defined.

(** X18. For a command whose [SubcommandHelp] is not empty the render does
    not depend on the subcommands generator, and in the output the
    SUBCOMMANDS section is the header, that text after one [indentString],
    and the hint line all the same: the hint is written for an explicit
    subcommand help too. *)
Theorem SubcommandHelp_overrides_generator (rootName : string)
  (root cmd : Command) (path : list string) (out : Writer) :
  Get root path = inl cmd ->
  cmd_SubcommandHelp cmd <> EmptyString ->
  (forall subcommandGen : Command -> string -> list string -> list string,
      LongHelpWith argumentText optionText subcommandGen rootName root path out
      = LongHelp rootName root path out)
  /\ fst (LongHelp rootName root path out)
     = out
       ++ nl ++ indentStr ++ usageLine (fieldsOf rootName cmd path)
       ++ nl ++ nl
       ++ sectionText "ARGUMENTS:" indentStr
            (Arguments (fieldsOf rootName cmd path)) EmptyString
       ++ sectionText "OPTIONS:" indentStr
            (Options (fieldsOf rootName cmd path)) EmptyString
       ++ ("SUBCOMMANDS:" ++ nl ++ nl
           ++ "    " ++ indentString (cmd_SubcommandHelp cmd) "    "
           ++ nl ++ nl
           ++ "    Use '" ++ displayPath rootName path
           ++ " <subcmd> --help' for more information about each command."
           ++ nl ++ nl)
       ++ sectionText "DESCRIPTION:" indentStr
            (Description (fieldsOf rootName cmd path)) EmptyString
       ++ nl.
Proof.
  intros Hget Hne.
  assert (Hf : forall subcommandGen,
             composeFields argumentText optionText subcommandGen
                           rootName cmd path
             = fieldsOf rootName cmd path).
  { intro subcommandGen. unfold fieldsOf, composeFields.
    destruct (cmd_SubcommandHelp cmd); [congruence | reflexivity]. }
  split.
  - intro subcommandGen. unfold LongHelp.
    rewrite !(LongHelpWith_renders _ _ _ _ _ cmd _ _ Hget).
    now rewrite Hf.
  - unfold LongHelp. rewrite (LongHelpWith_renders _ _ _ _ _ cmd _ _ Hget).
    fold (fieldsOf rootName cmd path). cbn [fst]. unfold longHelpText.
    assert (Hs : Subcommands (fieldsOf rootName cmd path)
                 = indentString (cmd_SubcommandHelp cmd) indentStr).
    { unfold fieldsOf, composeFields. cbn [Subcommands].
      destruct (cmd_SubcommandHelp cmd); [congruence | reflexivity]. }
    rewrite Hs. unfold sectionText at 3. unfold hintLine.
    pose proof (indentString_nonempty _ indentStr Hne) as Hne'.
    apply truth_nonempty in Hne'. rewrite Hne'.
    rewrite composeFields_Path. reflexivity.
Qed.

Lemma SubcommandHelp_overrides_generator_witness :
  LongHelpWith argumentText optionText (fun _ _ _ => ["generated"])
               "ipfs" (mkCommand "" "" "" "" "add, rm" [] [] []) []
               EmptyString
  = LongHelp "ipfs" (mkCommand "" "" "" "" "add, rm" [] [] []) []
             EmptyString
  /\ fst (LongHelp "ipfs" (mkCommand "" "" "" "" "add, rm" [] [] []) []
                   EmptyString)
     = nl ++ "    ipfs - " ++ nl ++ nl
       ++ "SUBCOMMANDS:" ++ nl ++ nl ++ "    add, rm" ++ nl ++ nl
       ++ "    Use 'ipfs <subcmd> --help' for more information about each command."
       ++ nl ++ nl ++ nl.
Proof.
  split.
  - exact (proj1 (SubcommandHelp_overrides_generator
                    "ipfs" (mkCommand "" "" "" "" "add, rm" [] [] []) _ []
                    EmptyString eq_refl ltac:(discriminate))
                 (fun _ _ _ => ["generated"])).
  - exact (proj2 (SubcommandHelp_overrides_generator
                    "ipfs" (mkCommand "" "" "" "" "add, rm" [] [] []) _ []
                    EmptyString eq_refl ltac:(discriminate))).
Defined.

(** ** More on alignment *)

(** X19. [align] returns its input unchanged when all the lines that are not
    empty already have one and the same length. *)
Theorem align_fixes_uniform (m : nat) (lines : list string) :
  Forall (fun r => r = EmptyString \/ String.length r = m) lines ->
  align lines = lines.
Proof.
  intro Hu. unfold align. rewrite longestOf_max.
  destruct (pad_uniform m lines Hu 0 (or_introl eq_refl)) as [H0 | Hm];
    rewrite Nat.max_0_l in *.
  - rewrite H0. apply (padTo_uniform m); [exact Hu | right].
    split; [reflexivity | now apply list_max_zero_empty].
  - rewrite Hm. apply (padTo_uniform m); [exact Hu | now left].
Qed.

Lemma align_fixes_uniform_witness :
  align ["-f, "; ""; "-x  "] = ["-f, "; ""; "-x  "].
Proof.
  exact (align_fixes_uniform 4 ["-f, "; ""; "-x  "]
           ltac:(repeat (apply Forall_cons; [first [now left | now right]|]);
                 apply Forall_nil)).
Defined.

(** ** Lines only grow *)

Lemma extends_refl (a : string) : extends a a.
Proof. exists EmptyString. now rewrite append_empty_r. Qed.

Lemma extends_append (a rest : string) : extends a (a ++ rest).
Proof. now exists rest. Qed.

Lemma extends_trans (a b c : string) : extends a b -> extends b c -> extends a c.
Proof.
  intros [r1 ->] [r2 ->]. exists (r1 ++ r2). apply append_assoc.
Qed.

Lemma Forall2_extends_refl (lines : list string) : Forall2 extends lines lines.
Proof. induction lines; constructor; [apply extends_refl | assumption]. Qed.

Lemma Forall2_extends_trans (l1 l2 l3 : list string) :
  Forall2 extends l1 l2 -> Forall2 extends l2 l3 -> Forall2 extends l1 l3.
Proof.
  intro H12. revert l3. induction H12 as [|a b l1 l2 Hab _ IH]; intros l3 H23.
  - inversion H23. constructor.
  - inversion H23 as [|b' c l2' l3' Hbc Hrest]; subst.
    constructor; [exact (extends_trans _ _ _ Hab Hbc) | now apply IH].
Qed.

Lemma update_extends (i : nat) (f : string -> string) (lines : list string) :
  (forall l, extends l (f l)) -> Forall2 extends lines (update i f lines).
Proof.
  intro Hf. revert i. induction lines as [|l lines IH]; intro i.
  - destruct i; constructor.
  - destruct i; simpl; constructor;
      auto using extends_refl, Forall2_extends_refl.
Qed.

Lemma align_extends (lines : list string) : Forall2 extends lines (align lines).
Proof.
  unfold align. generalize (longestOf lines). intro longest.
  induction lines as [|l lines IH]; simpl; constructor; [|exact IH].
  unfold padTo. destruct (0 <? String.length l)%nat;
    [apply extends_append | apply extends_refl].
Qed.

Lemma namesStep_extends (j : nat) (lines : list string) (done : bool)
  (i : nat) (opt : Option) :
  i < List.length lines ->
  Forall2 extends lines (fst (fst (namesStep j (lines, done, i) opt))).
Proof.
  intro Hi. unfold namesStep.
  replace (List.length lines <? i + 1)%nat with false
    by (symmetry; apply Nat.ltb_ge; lia).
  destruct (j + 1 <=? List.length (opt_Names opt))%nat;
    destruct (j + 1 <? List.length (opt_Names opt))%nat; cbn [fst];
    repeat (first [ apply Forall2_extends_refl
                  | eapply Forall2_extends_trans;
                    [apply update_extends; intro; apply extends_append|] ]).
Qed.

Lemma namesFold_extends (j : nat) (options : list Option) :
  forall (lines : list string) (done : bool) (i : nat),
    i + List.length options <= List.length lines ->
    Forall2 extends lines
            (fst (fst (fold_left (namesStep j) options (lines, done, i)))).
Proof.
  induction options as [|opt options IH]; intros lines done i Hi.
  - apply Forall2_extends_refl.
  - cbn [fold_left List.length] in *.
    assert (Hlt : i < List.length lines) by lia.
    pose proof (namesStep_extends j lines done i opt Hlt) as Hstep.
    destruct (namesStep_shape j lines done i opt (Nat.lt_le_incl _ _ Hlt))
      as [l' [d' [Heq Hlen] ] ].
    rewrite Heq in *. cbn [fst] in Hstep.
    eapply Forall2_extends_trans; [exact Hstep|]. apply IH. lia.
Qed.

Lemma namesLoop_extends (options : list Option) (fuel : nat) :
  forall (j : nat) (lines result : list string),
    List.length lines = List.length options ->
    namesLoop fuel j options lines = Some result ->
    Forall2 extends lines result.
Proof.
  induction fuel as [|fuel IH]; intros j lines result Hlen H; [discriminate|].
  cbn [namesLoop] in H.
  pose proof (namesFold_extends j options lines true 0) as Hpass.
  unfold namesPass in *.
  destruct (fold_left (namesStep j) options (lines, true, 0)) as [[l d] i].
  cbn [fst] in *. specialize (Hpass ltac:(lia)).
  pose proof (Forall2_length Hpass) as Hl.
  destruct d.
  - injection H as <-. exact Hpass.
  - eapply Forall2_extends_trans; [exact Hpass|].
    eapply Forall2_extends_trans; [apply align_extends|].
    apply (IH (S j) (align l) result); [rewrite align_length; lia | exact H].
Qed.

Lemma namesStep_first (pre : list string) (done : bool) (opt : Option) :
  exists done',
    namesStep 0 (pre, done, List.length pre) opt
    = ((pre ++ [firstFlag opt])%list, done', S (List.length pre)).
Proof.
  unfold namesStep, firstFlag.
  replace (List.length pre <? List.length pre + 1)%nat with true
    by (symmetry; apply Nat.ltb_lt; lia).
  cbn [Nat.add].
  destruct (1 <=? List.length (opt_Names opt))%nat;
    destruct (1 <? List.length (opt_Names opt))%nat;
    rewrite ?update_at_end, ?Sprintf_optionFlag, ?append_empty_r;
    eexists; reflexivity.
Qed.

Lemma namesFold_first (options : list Option) :
  forall (pre : list string) (done : bool),
    fst (fst (fold_left (namesStep 0) options (pre, done, List.length pre)))
    = (pre ++ map firstFlag options)%list.
Proof.
  induction options as [|opt options IH]; intros pre done.
  - simpl. now rewrite app_nil_r.
  - cbn [fold_left]. destruct (namesStep_first pre done opt) as [d' ->].
    replace (S (List.length pre))
      with (List.length (pre ++ [firstFlag opt])%list)
      by (rewrite length_app; simpl; lia).
    rewrite IH, <- app_assoc. reflexivity.
Qed.

Lemma Forall2_extends_map (f : Option -> string) (options : list Option)
  (lines : list string) :
  Forall2 extends (map f options) lines ->
  Forall2 (fun opt line => extends (f opt) line) options lines.
Proof.
  revert lines. induction options as [|opt options IH]; intros lines H;
    inversion H; subst; constructor; auto.
Qed.

Lemma typed_extends (options : list Option) :
  forall lines : list string,
    List.length lines = List.length options ->
    Forall2 extends lines
            (map (fun p => snd p ++ (" " ++ fmt.Sprintf optionType
                                              [opt_Type (fst p)]))
                 (combine options lines)).
Proof.
  induction options as [|opt options IH]; intros lines Hlen;
    destruct lines as [|l lines]; try discriminate; simpl; constructor.
  - apply extends_append.
  - apply IH. now injection Hlen.
Qed.

(** X21. Every names-and-type line of [optionText] starts with what the
    first pass wrote for its option: the first flag, and a comma and a space
    when the option has a second alias.  The later passes, the type and the
    paddings only append. *)
Theorem optionColumns_start_with_first_flag (options : list Option) :
  Forall2 (fun opt line => extends (firstFlag opt) line)
          options (optionColumns options).
Proof.
  apply Forall2_extends_map.
  destruct (namesLoop_terminates options) as [lines Hl].
  pose proof (namesLoop_length _ _ _ _ _ Hl) as Hlen. simpl in Hlen.
  assert (Hfirst : Forall2 extends (map firstFlag options) lines).
  { cbn [namesLoop] in Hl. unfold namesPass in Hl.
    pose proof (namesFold_first options [] true) as Hf.
    cbn [List.length app] in Hf.
    destruct (fold_left (namesStep 0) options ([], true, 0)) as [[l d] i].
    cbn [fst] in Hf. subst l. destruct d.
    - injection Hl as <-. apply Forall2_extends_refl.
    - eapply Forall2_extends_trans; [apply align_extends|].
      apply (namesLoop_extends options (maxNames options) 1); [|exact Hl].
      now rewrite align_length, length_map. }
  unfold optionColumns. rewrite Hl.
  rewrite rangeUpdate_combine by exact Hlen.
  eapply Forall2_extends_trans; [exact Hfirst|].
  eapply Forall2_extends_trans; [apply (typed_extends options _ Hlen)|].
  apply align_extends.
Qed.
